(** * transcribe.py: the chunked transcription pipeline

    A shallow embedding of [src/transcribe.py] (download, audio extraction,
    fixed-duration splitting, per-chunk transcription, saving) and the
    properties of its segmentation policy and of its transcription loop.

    Python objects are embedded as follows.
    - [bytes] and the contents of an [io.BytesIO]: [list Byte.byte];
    - [str]: [string]; Python [int]: [Z];
    - a pydub [AudioSegment]: the list of its one-millisecond frames, the
      unit in which [len(audio)] and [audio[a:b]] are expressed;
    - a raised exception: the [Raise] branch of [result];
    - the file system, the order of the calls to external libraries and
      whatever hidden state the speech model reads: the [world] threaded
      through the monad [M]. *)

From stdpp Require Import base gmap strings list.
From Stdlib Require Import ZArith Lia.

Set Default Proof Using "Type".

(** ** Exceptions and results *)

Inductive library := Requests | Ffmpeg | Pydub | Whisper.

Inductive exn :=
  | TypeError                       (* a bytes-like object is required *)
  | ValueError                      (* range() arg 3 must not be zero *)
  | LibraryError (origin : library) (detail : string).

Inductive result (T : Type) :=
  | Ok (v : T)
  | Raise (e : exn).
Arguments Ok {T} v.
Arguments Raise {T} e.

#[global] Instance library_eq_dec : EqDecision library.
Proof. solve_decision. Defined.

#[global] Instance exn_eq_dec : EqDecision exn.
Proof. solve_decision. Defined.

#[global] Instance result_eq_dec {T} `{EqDecision T} : EqDecision (result T).
Proof. solve_decision. Defined.

#[global] Instance byte_eq_dec : EqDecision Byte.byte := Byte.byte_eq_dec.

Definition is_ok {T} (r : result T) : bool :=
  match r with Ok _ => true | Raise _ => false end.

Abbreviation bytes := (list Byte.byte).

(** [download_video] is annotated [-> bytes] but returns an [io.BytesIO];
    the two kinds of object are told apart where the code passes one to a
    constructor that accepts only one of them. *)
Inductive pyobj :=
  | PyBytes (b : bytes)
  | PyBytesIO (b : bytes).

(** [io.BytesIO(initial)] and [Popen.communicate(input)] want a bytes-like
    object; an [io.BytesIO] is not one. *)
Definition bytes_like (o : pyobj) : result bytes :=
  match o with
  | PyBytes b => Ok b
  | PyBytesIO _ => Raise TypeError
  end.

(** ** The world: files, the calls made so far, the model's hidden state *)

Inductive event :=
  | EvGet (url : string)
  | EvFfmpeg (input : bytes)
  | EvDecode (data : bytes)
  | EvLoadModel (name : string)
  | EvTranscribe (chunk : bytes)
  | EvWrite (path text : string)
  | EvPrint (msg : string).

#[global] Instance event_eq_dec : EqDecision event.
Proof. solve_decision. Defined.

Record world (H : Type) := World {
  files : gmap string string;
  trace : list event;
  hidden : H;
}.
Arguments World {H}.
Arguments files {H}.
Arguments trace {H}.
Arguments hidden {H}.

#[global] Instance world_eq_dec {H} `{EqDecision H} : EqDecision (world H).
Proof. solve_decision. Defined.

Module Run.

Definition M (H T : Type) : Type := world H → result T * world H.

Definition ret {H T} (v : T) : M H T := λ w, (Ok v, w).

Definition bind {H A B} (c : M H A) (k : A → M H B) : M H B :=
  λ w, match c w with
       | (Ok a, w') => k a w'
       | (Raise e, w') => (Raise e, w')
       end.

Definition lift {H T} (r : result T) : M H T := λ w, (r, w).

Definition log {H} (ev : event) : M H () :=
  λ w, (Ok (), World (files w) (trace w ++ [ev]) (hidden w)).

End Run.
Import Run.

Declare Scope run_scope.
Delimit Scope run_scope with run.
Notation "x <~ c ;; k" := (bind c (λ x, k))
  (at level 100, c at next level, right associativity) : run_scope.
Notation "c ;;; k" := (bind c (λ _, k))
  (at level 100, right associativity) : run_scope.
Open Scope run_scope.

(** ** Python built-ins *)

(** ["\n"], the character of code 10. *)
Definition newline : string :=
  String (Ascii.Ascii false true false true false false false false) EmptyString.

(** [len(range(start, stop, step))] for a non-zero step. *)
Definition range_length (start stop step : Z) : Z :=
  let '(lo, hi, step) :=
    if (0 <? step)%Z then (start, stop, step) else (stop, start, (- step)%Z) in
  if (hi <=? lo)%Z then 0%Z else ((hi - lo - 1) `div` step + 1)%Z.

(** [range(start, stop, step)]: element [i] is [start + i * step]. *)
Definition range (start stop step : Z) : result (list Z) :=
  if (step =? 0)%Z then Raise ValueError
  else Ok ((λ i : nat, (start + Z.of_nat i * step)%Z)
             <$> seq 0 (Z.to_nat (range_length start stop step))).

(** ** The external libraries *)

Record externals (frame wave model H : Type) := Externals {
  (* requests.get(url, stream=True); raise_for_status(); .content *)
  requests_get : string → result bytes;
  (* ffmpeg.input('pipe:0').output('pipe:1', format='wav').run(input=...):
     the captured (stdout, stderr) *)
  ffmpeg_run : bytes → result (bytes * bytes);
  (* AudioSegment.from_file(data, format="wav") *)
  from_file : bytes → result (list frame);
  (* chunk.export(buf, format="wav"); buf.seek(0) *)
  export : list frame → bytes;
  (* whisper.load_model(name) *)
  load_model : string → result model;
  (* whisper.load_audio(data) *)
  load_audio : bytes → result wave;
  (* model.transcribe(audio)['text'] *)
  model_transcribe : model → wave → H → result string * H;
}.
Arguments requests_get {frame wave model H}.
Arguments ffmpeg_run {frame wave model H}.
Arguments from_file {frame wave model H}.
Arguments export {frame wave model H}.
Arguments load_model {frame wave model H}.
Arguments load_audio {frame wave model H}.
Arguments model_transcribe {frame wave model H}.

(** [audio[start:stop]] on an [AudioSegment], for [0 <= start]: both ends
    are clamped to [len(audio)]. *)
Definition slice_ms {frame} (audio : list frame) (start stop : Z) : list frame :=
  let len := Z.of_nat (length audio) in
  let start := Z.min start len in
  let stop := Z.min stop len in
  take (Z.to_nat (stop - start)) (drop (Z.to_nat start) audio).

Section Pipeline.
Context {frame wave model H : Type}.
Context (X : externals frame wave model H).

Abbreviation M := (M H).

(** *** VideoDownloader *)

Definition download_video (video_url : string) : M pyobj :=
  log (EvGet video_url) ;;;
  content <~ lift (requests_get X video_url) ;;
  ret (PyBytesIO content).

(** *** AudioExtractor *)

Definition extract_audio (video_data : pyobj) : M bytes :=
  video_file <~ lift (bytes_like video_data) ;;
  let audio_output : bytes := [] in
  input <~ lift (bytes_like video_data) ;;
  log (EvFfmpeg input) ;;;
  _ <~ lift (ffmpeg_run X input) ;;
  ret audio_output.

(** *** AudioSplitter *)

(** The body of the [for] loop of [split_audio]. *)
Definition split_step (audio : list frame) (chunk_duration : Z)
    (chunks : list bytes) (start_ms : Z) : list bytes :=
  let chunk := slice_ms audio start_ms (start_ms + chunk_duration * 1000) in
  let chunk_data := export X chunk in
  chunks ++ [chunk_data].

Definition split_audio (audio_data : bytes) (chunk_duration : Z) : M (list bytes) :=
  log (EvDecode audio_data) ;;;
  audio <~ lift (from_file X audio_data) ;;
  let duration_ms := Z.of_nat (length audio) in
  starts <~ lift (range 0 duration_ms (chunk_duration * 1000)) ;;
  ret (foldl (split_step audio chunk_duration) [] starts).

(** *** Transcriber *)

Definition Transcriber_init : M model :=
  log (EvLoadModel "base") ;;;
  lift (load_model X "base").

Definition transcribe (self : model) (audio_data : bytes) : M string :=
  log (EvTranscribe audio_data) ;;;
  audio <~ lift (load_audio X audio_data) ;;
  (λ w, let '(r, h) := model_transcribe X self audio (hidden w) in
        (r, World (files w) (trace w) h)).

(** *** TextSaver *)

(** [open(file_path, 'w')] and [f.write(text)]: the file is created, or
    replaced, with [text]. The write is taken to succeed: an [OSError] of
    [open] or of [write] (a missing directory, a full disk) is not
    modelled, so what is stated of a written file is stated of runs whose
    write succeeds. *)
Definition save_text (file_path text : string) : M () :=
  λ w, (Ok (), World (<[file_path := text]> (files w))
                     (trace w ++ [EvWrite file_path text]) (hidden w)).

(** *** VideoProcessor *)

(** The [for chunk in chunks] loop of [process_video]. *)
Fixpoint transcribe_loop (transcriber : model) (full_text : string)
    (chunks : list bytes) : M string :=
  match chunks with
  | [] => ret full_text
  | chunk :: rest =>
      text <~ transcribe transcriber chunk ;;
      transcribe_loop transcriber (full_text +:+ (text +:+ newline)) rest
  end.

Definition success_message (output_text_file : string) : string :=
  "Текст успешно сохранен в " +:+ output_text_file.

(** Steps 3 to 5 of [process_video]: what happens to the extracted audio.
    [process_video] builds its [AudioSplitter] with the default
    [chunk_duration = 30]; the duration is a parameter here so that the
    splitter's other settings can be followed through the loop as well. *)
Definition process_audio (chunk_duration : Z) (audio_data : bytes)
    (output_text_file : string) : M () :=
  chunks <~ split_audio audio_data chunk_duration ;;
  transcriber <~ Transcriber_init ;;
  full_text <~ transcribe_loop transcriber "" chunks ;;
  save_text output_text_file full_text ;;;
  log (EvPrint (success_message output_text_file)).

Definition process_video (video_url output_text_file : string) : M () :=
  video_data <~ download_video video_url ;;
  audio_data <~ extract_audio video_data ;;
  process_audio 30 audio_data output_text_file.

End Pipeline.

(** ** Descriptions of what the pipeline computes *)

(** Every text followed by one newline, in list order. *)
Definition join_lines (texts : list string) : string :=
  foldr (λ text rest, (text +:+ newline) +:+ rest) "" texts.

(** The chunks of an audio of [length audio] milliseconds cut every
    [step] milliseconds, before they are exported. *)
Definition strides {frame} (audio : list frame) (step : Z) : list (list frame) :=
  (λ i, take (Z.to_nat step) (drop (i * Z.to_nat step) audio))
  <$> seq 0 (Z.to_nat ((Z.of_nat (length audio) + step - 1) `div` step)).

Definition is_write (ev : event) : bool :=
  match ev with EvWrite _ _ => true | _ => false end.

Definition is_transcribe (ev : event) : bool :=
  match ev with EvTranscribe _ => true | _ => false end.

(** [full_text] after the segments have been appended to it. *)
Fixpoint assemble (full_text : string) (segs : list (result string)) : result string :=
  match segs with
  | [] => Ok full_text
  | Ok text :: segs => assemble (full_text +:+ (text +:+ newline)) segs
  | Raise e :: _ => Raise e
  end.

Section Engine.
Context {frame wave model H : Type}.
Context (X : externals frame wave model H).
Implicit Types (self : model) (chunks : list bytes) (h : H).

(** What one call of [Transcriber.transcribe] answers, and the hidden
    state it leaves. *)
Definition engine self (chunk : bytes) h : result string * H :=
  match load_audio X chunk with
  | Ok audio => model_transcribe X self audio h
  | Raise e => (Raise e, h)
  end.

(** The transcript segments of a run: segment [i] is the answer to chunk
    [i], asked in the hidden state left by chunk [i - 1]; the first
    failure is the last segment. *)
Fixpoint segments self chunks h : list (result string) :=
  match chunks with
  | [] => []
  | chunk :: rest =>
      let '(r, h') := engine self chunk h in
      r :: match r with
           | Ok _ => segments self rest h'
           | Raise _ => []
           end
  end.

(** The hidden state in which the loop stops. *)
Fixpoint hidden_after self chunks h : H :=
  match chunks with
  | [] => h
  | chunk :: rest =>
      let '(r, h') := engine self chunk h in
      match r with
      | Ok _ => hidden_after self rest h'
      | Raise _ => h'
      end
  end.

(** Chunks whose answer does not depend on the hidden state. *)
Definition answers self (chunk : bytes) (r : result string) : Prop :=
  ∀ h, (engine self chunk h).1 = r.

(** An engine is deterministic when the text it answers does not depend
    on the hidden state. *)
Definition deterministic_engine : Prop :=
  ∀ self audio h1 h2,
    (model_transcribe X self audio h1).1 = (model_transcribe X self audio h2).1.

End Engine.

(** ** The failure-isolation policy, in the words of the specification

    Every chunk is transcribed; a failure becomes a failed segment and the
    next chunk is processed; the transcript joins the text of the
    successful segments, each followed by one newline; the run fails only
    when there are chunks and all of them failed. *)

Module Spec.

Record TranscriptSegment := {
  index : nat;
  text : string;
  success : bool;
  error : option exn;
}.

Definition segment_of (i : nat) (answer : result string) : TranscriptSegment :=
  match answer with
  | Ok t => {| index := i; text := t; success := true; error := None |}
  | Raise e => {| index := i; text := ""; success := false; error := Some e |}
  end.

Definition transcript (segs : list TranscriptSegment) : string :=
  join_lines (text <$> filter (λ seg, success seg = true) segs).

(** [None] stands for the failure of the whole run. *)
Definition run (answers : list (result string)) : option string :=
  let segs := imap segment_of answers in
  match segs with
  | [] => Some ""
  | _ :: _ =>
      if forallb (λ seg, negb (success seg)) segs then None
      else Some (transcript segs)
  end.

(** [TranscriptionFailed]: the aggregate of the per-chunk errors, raised
    when there are chunks and every one of them failed. *)
Definition transcription_failed (answers : list (result string))
    : option (list exn) :=
  let segs := imap segment_of answers in
  match segs with
  | [] => None
  | _ :: _ =>
      if forallb (λ seg, negb (success seg)) segs then Some (omap error segs)
      else None
  end.

End Spec.

(** ** A small instance of the external libraries

    Every byte of a decoded buffer is one millisecond of sound; the model
    hears the letter written in the first byte of a chunk and fails on
    anything else; the hidden state counts the calls made to the model. *)

Module Toy.

Definition speech (audio : bytes) : result string :=
  match audio with
  | Byte.x61 :: _ => Ok "a"
  | Byte.x62 :: _ => Ok "b"
  | Byte.x63 :: _ => Ok "c"
  | _ => Raise (LibraryError Whisper "no speech")
  end.

Definition libs : externals Byte.byte bytes () nat := {|
  requests_get := λ _, Ok [Byte.x00];
  ffmpeg_run := λ b, Ok (b, []);
  from_file := λ b, Ok b;
  export := λ chunk, chunk;
  load_model := λ _, Ok ();
  load_audio := λ b, Ok b;
  model_transcribe := λ _ audio calls, (speech audio, S calls);
|}.

Definition w0 : world nat := World ∅ [] 0.

Definition sound (seconds : Z) (b : Byte.byte) : bytes :=
  replicate (Z.to_nat (seconds * 1000)) b.

(** 65 seconds: 30 s of "a", 30 s of "b", 5 s of "c". *)
Definition abc : bytes :=
  sound 30 Byte.x61 ++ sound 30 Byte.x62 ++ sound 5 Byte.x63.

(** The same with 30 s of noise in the middle. *)
Definition a_c : bytes :=
  sound 30 Byte.x61 ++ sound 30 Byte.x00 ++ sound 5 Byte.x63.

Definition out : string := "out.txt".

End Toy.

(** The same libraries with a model that hears nothing: it fails on every
    chunk, with an error that tells silence (a first byte 0) from noise. *)

Module Noisy.

Definition speech (audio : bytes) : result string :=
  match audio with
  | Byte.x00 :: _ => Raise (LibraryError Whisper "silence")
  | _ => Raise (LibraryError Whisper "noise")
  end.

Definition libs : externals Byte.byte bytes () nat := {|
  requests_get := requests_get Toy.libs;
  ffmpeg_run := ffmpeg_run Toy.libs;
  from_file := from_file Toy.libs;
  export := export Toy.libs;
  load_model := load_model Toy.libs;
  load_audio := load_audio Toy.libs;
  model_transcribe := λ _ audio calls, (speech audio, S calls);
|}.

End Noisy.

(** ** Arithmetic of [range] *)

Lemma range_length_forward (stop step : Z) :
  (0 ≤ stop)%Z → (0 < step)%Z →
  range_length 0 stop step = ((stop + step - 1) `div` step)%Z.
Proof.
  intros Hstop Hstep. unfold range_length.
  destruct (Z.ltb_spec 0 step) as [_|?]; [|lia].
  destruct (Z.leb_spec stop 0) as [Hle|Hlt].
  - assert (stop = 0%Z) as -> by lia.
    symmetry. apply Z.div_small. lia.
  - replace (stop + step - 1)%Z with (stop - 0 - 1 + 1 * step)%Z by lia.
    rewrite Z.div_add by lia. reflexivity.
Qed.

Lemma range_length_backward (stop step : Z) :
  (0 ≤ stop)%Z → (step < 0)%Z → range_length 0 stop step = 0%Z.
Proof.
  intros Hstop Hstep. unfold range_length.
  destruct (Z.ltb_spec 0 step) as [?|_]; [lia|].
  destruct (Z.leb_spec 0 stop) as [_|?]; [reflexivity|lia].
Qed.

(** The quotient rounded up is the least number of strides that reach
    [stop]. *)
Lemma ceil_div_bounds (stop step : Z) :
  (0 ≤ stop)%Z → (0 < step)%Z →
  let n := ((stop + step - 1) `div` step)%Z in
  (0 ≤ n ∧ (n - 1) * step < stop ≤ n * step)%Z.
Proof.
  intros Hstop Hstep n.
  pose proof (Z.div_mod (stop + step - 1) step ltac:(lia)) as Hdm.
  pose proof (Z.mod_pos_bound (stop + step - 1) step Hstep) as Hmod.
  fold n in Hdm. nia.
Qed.

(** ** Slices of an [AudioSegment] *)

Section Slices.
Context {frame : Type}.
Implicit Types audio : list frame.

Lemma take_min_length audio (n : nat) :
  take (n `min` length audio) audio = take n audio.
Proof.
  destruct (Nat.le_ge_cases n (length audio)) as [Hle|Hge].
  - by rewrite Nat.min_l.
  - rewrite Nat.min_r by done. by rewrite !take_ge.
Qed.

(** A stride that starts at [i * step] is the next [step] frames. *)
Lemma slice_ms_stride audio (i : nat) (step : Z) :
  (0 < step)%Z →
  slice_ms audio (Z.of_nat i * step) (Z.of_nat i * step + step)
  = take (Z.to_nat step) (drop (i * Z.to_nat step) audio).
Proof.
  intros Hstep. unfold slice_ms.
  set (L := length audio). set (s := Z.to_nat step).
  assert (Z.of_nat i * step = Z.of_nat (i * s))%Z as Hpos by (subst s; nia).
  rewrite Hpos.
  destruct (Nat.le_gt_cases L (i * s)) as [Hout|Hin].
  - rewrite (drop_ge audio (i * s)) by done. rewrite take_nil.
    rewrite !Z.min_r by lia. rewrite Z.sub_diag. reflexivity.
  - rewrite (Z.min_l (Z.of_nat (i * s))) by lia. rewrite Nat2Z.id.
    rewrite <- (take_min_length (drop (i * s) audio) s).
    f_equal. rewrite length_drop. fold L. subst s. lia.
Qed.

Lemma concat_strides audio (s n : nat) :
  concat ((λ i, take s (drop (i * s) audio)) <$> seq 0 n) = take (n * s) audio.
Proof.
  induction n as [|n IH]; [done|].
  rewrite seq_S, fmap_app, concat_app, IH. simpl.
  rewrite app_nil_r, take_take_drop. f_equal. lia.
Qed.

Lemma length_stride audio (s i : nat) :
  length (take s (drop (i * s) audio)) = s `min` (length audio - i * s).
Proof. by rewrite length_take, length_drop. Qed.

End Slices.

(** ** The segmentation loop *)

Section Segmentation.
Context {frame wave model H : Type}.
Context (X : externals frame wave model H).
Implicit Types (audio : list frame) (w : world H).

Lemma foldl_split_step audio chunk_duration (starts : list Z) (acc : list bytes) :
  foldl (split_step X audio chunk_duration) acc starts
  = acc ++ ((λ start_ms,
               export X (slice_ms audio start_ms (start_ms + chunk_duration * 1000)))
            <$> starts).
Proof.
  revert acc. induction starts as [|st starts IH]; intros acc; simpl.
  - by rewrite app_nil_r.
  - rewrite IH. unfold split_step. by rewrite <- app_assoc.
Qed.

Lemma split_audio_forward audio_data audio chunk_duration w :
  (0 < chunk_duration)%Z →
  from_file X audio_data = Ok audio →
  split_audio X audio_data chunk_duration w
  = (Ok (export X <$> strides audio (chunk_duration * 1000)),
     World (files w) (trace w ++ [EvDecode audio_data]) (hidden w)).
Proof.
  intros Hcd Hdec. unfold split_audio, bind, log, lift, ret. simpl.
  rewrite Hdec. unfold range.
  destruct (Z.eqb_spec (chunk_duration * 1000) 0) as [?|_]; [lia|].
  rewrite range_length_forward by lia.
  rewrite foldl_split_step. simpl. unfold strides.
  rewrite <- !list_fmap_compose. do 2 f_equal.
  apply list_fmap_ext. intros _ i _. simpl.
  by rewrite <- slice_ms_stride by lia.
Qed.

Lemma split_audio_zero audio_data audio w :
  from_file X audio_data = Ok audio →
  split_audio X audio_data 0 w
  = (Raise ValueError,
     World (files w) (trace w ++ [EvDecode audio_data]) (hidden w)).
Proof.
  intros Hdec. unfold split_audio, bind, log, lift. simpl. by rewrite Hdec.
Qed.

Lemma split_audio_backward audio_data audio chunk_duration w :
  (chunk_duration < 0)%Z →
  from_file X audio_data = Ok audio →
  split_audio X audio_data chunk_duration w
  = (Ok [], World (files w) (trace w ++ [EvDecode audio_data]) (hidden w)).
Proof.
  intros Hcd Hdec. unfold split_audio, bind, log, lift, ret. simpl.
  rewrite Hdec. unfold range.
  destruct (Z.eqb_spec (chunk_duration * 1000) 0) as [?|_]; [lia|].
  rewrite range_length_backward by lia. reflexivity.
Qed.

Lemma split_audio_undecodable audio_data e chunk_duration w :
  from_file X audio_data = Raise e →
  split_audio X audio_data chunk_duration w
  = (Raise e, World (files w) (trace w ++ [EvDecode audio_data]) (hidden w)).
Proof.
  intros Hdec. unfold split_audio, bind, log, lift. simpl. by rewrite Hdec.
Qed.

End Segmentation.

(** ** Strings *)

Lemma append_assoc (s1 s2 s3 : string) : (s1 +:+ s2) +:+ s3 = s1 +:+ (s2 +:+ s3).
Proof.
  induction s1 as [|a s1 IH]; [done|].
  change (String a ((s1 +:+ s2) +:+ s3) = String a (s1 +:+ (s2 +:+ s3))).
  by f_equal.
Qed.

Lemma append_empty_r (s : string) : s +:+ "" = s.
Proof.
  induction s as [|a s IH]; [done|].
  change (String a (s +:+ "") = String a s). by f_equal.
Qed.

Lemma join_lines_app (ts1 ts2 : list string) :
  join_lines (ts1 ++ ts2) = join_lines ts1 +:+ join_lines ts2.
Proof.
  induction ts1 as [|t ts1 IH]; simpl; [done|].
  by rewrite IH, !append_assoc.
Qed.

(** ** The transcription loop *)

Section Loop.
Context {frame wave model H : Type}.
Context (X : externals frame wave model H).
Implicit Types (self : model) (chunks : list bytes) (w : world H) (h : H).

Lemma transcribe_engine self chunk w :
  transcribe X self chunk w
  = ((engine X self chunk (hidden w)).1,
     World (files w) (trace w ++ [EvTranscribe chunk])
           (engine X self chunk (hidden w)).2).
Proof.
  unfold transcribe, engine, bind, log, lift. simpl.
  destruct (load_audio X chunk) as [audio|e]; simpl; [|done].
  by destruct (model_transcribe X self audio (hidden w)).
Qed.

Lemma transcribe_loop_run self chunks full_text w :
  transcribe_loop X self full_text chunks w
  = (assemble full_text (segments X self chunks (hidden w)),
     World (files w)
           (trace w ++ (EvTranscribe <$>
                          take (length (segments X self chunks (hidden w))) chunks))
           (hidden_after X self chunks (hidden w))).
Proof.
  revert full_text w. induction chunks as [|chunk rest IH]; intros full_text w.
  - simpl. unfold ret. rewrite app_nil_r. by destruct w.
  - simpl. unfold bind. rewrite transcribe_engine.
    destruct (engine X self chunk (hidden w)) as [[text|e] h']; simpl.
    + rewrite IH. simpl. by rewrite <- app_assoc.
    + reflexivity.
Qed.

Lemma length_segments self chunks h :
  length (segments X self chunks h) ≤ length chunks.
Proof.
  revert h. induction chunks as [|chunk rest IH]; intros h; simpl; [done|].
  destruct (engine X self chunk h) as [[text|e] h']; simpl; [|lia].
  specialize (IH h'). lia.
Qed.

(** The segments are successes, closed by at most one failure, and there
    are as many as chunks exactly when nothing failed before the last. *)
Lemma segments_shape self chunks h :
  ∃ texts : list string,
    (segments X self chunks h = Ok <$> texts ∧ length texts = length chunks)
    ∨ (∃ e, segments X self chunks h = (Ok <$> texts) ++ [Raise e]
            ∧ length texts < length chunks).
Proof.
  revert h. induction chunks as [|chunk rest IH]; intros h; simpl.
  - exists []. by left.
  - destruct (engine X self chunk h) as [[text|e] h']; simpl.
    + destruct (IH h') as (texts & [[-> Hlen]|(e & -> & Hlen)]).
      * exists (text :: texts). left. simpl. by rewrite Hlen.
      * exists (text :: texts). right. exists e. simpl. split; [done|lia].
    + exists []. right. exists e. simpl. split; [done|lia].
Qed.

Lemma assemble_oks full_text (texts : list string) :
  assemble full_text (Ok <$> texts) = Ok (full_text +:+ join_lines texts).
Proof.
  revert full_text. induction texts as [|t texts IH]; intros full_text; simpl.
  - by rewrite append_empty_r.
  - by rewrite IH, !append_assoc.
Qed.

Lemma assemble_raise full_text (texts : list string) e rest :
  assemble full_text ((Ok <$> texts) ++ Raise e :: rest) = Raise e.
Proof.
  revert full_text. induction texts as [|t texts IH]; intros full_text; simpl; [done|].
  by rewrite IH.
Qed.

(** Segment [i] answers chunk [i]. *)
Lemma segments_lookup self chunks h (i : nat) r :
  segments X self chunks h !! i = Some r →
  ∃ chunk, chunks !! i = Some chunk
           ∧ r = (engine X self chunk (hidden_after X self (take i chunks) h)).1.
Proof.
  revert h i. induction chunks as [|chunk rest IH]; intros h i; simpl; [done|].
  destruct (engine X self chunk h) as [r0 h'] eqn:Heng.
  destruct i as [|i]; simpl.
  - intros [= <-]. exists chunk. by rewrite Heng.
  - rewrite Heng. destruct r0 as [text|e]; [|done]. apply IH.
Qed.

Lemma segments_all_ok self chunks (texts : list string) h :
  Forall2 (λ chunk text, answers X self chunk (Ok text)) chunks texts →
  segments X self chunks h = Ok <$> texts.
Proof.
  intros Hall. revert h.
  induction Hall as [|chunk text rest texts Hans _ IH]; intros h; simpl; [done|].
  specialize (Hans h). destruct (engine X self chunk h) as [r h']. simpl in Hans.
  subst r. by rewrite IH.
Qed.

Lemma segments_fail_at self (before after : list bytes) chunk
    (texts : list string) e h :
  Forall2 (λ chunk text, answers X self chunk (Ok text)) before texts →
  answers X self chunk (Raise e) →
  segments X self (before ++ chunk :: after) h = (Ok <$> texts) ++ [Raise e].
Proof.
  intros Hall Hfail. revert h.
  induction Hall as [|c text rest texts Hans _ IH]; intros h; simpl.
  - specialize (Hfail h). destruct (engine X self chunk h) as [r h'].
    simpl in Hfail. by subst r.
  - specialize (Hans h). destruct (engine X self c h) as [r h']. simpl in Hans.
    subst r. by rewrite IH.
Qed.

Lemma segments_deterministic self chunks h1 h2 :
  deterministic_engine X →
  segments X self chunks h1 = segments X self chunks h2.
Proof.
  intros Hdet. revert h1 h2.
  induction chunks as [|chunk rest IH]; intros h1 h2; simpl; [done|].
  assert ((engine X self chunk h1).1 = (engine X self chunk h2).1) as Heq.
  { unfold engine. destruct (load_audio X chunk); [apply Hdet|done]. }
  destruct (engine X self chunk h1) as [r1 h1'], (engine X self chunk h2) as [r2 h2'].
  simpl in Heq. subst r2. f_equal. destruct r1; [apply IH|done].
Qed.

End Loop.

(** ** The processor *)

Section Processor.
Context {frame wave model H : Type}.
Context (X : externals frame wave model H).
Implicit Types (chunks : list bytes) (w : world H).

(** Whatever it returns, [split_audio] makes one decode call and touches
    nothing else. *)
Lemma split_audio_world audio_data chunk_duration w :
  (split_audio X audio_data chunk_duration w).2
  = World (files w) (trace w ++ [EvDecode audio_data]) (hidden w).
Proof.
  unfold split_audio, bind, log, lift, ret. simpl.
  destruct (from_file X audio_data) as [audio|e]; [|done].
  by destruct (range _ _ _).
Qed.

Lemma process_audio_split_fails chunk_duration audio_data out w e :
  (split_audio X audio_data chunk_duration w).1 = Raise e →
  process_audio X chunk_duration audio_data out w
  = (Raise e, World (files w) (trace w ++ [EvDecode audio_data]) (hidden w)).
Proof.
  intros Hsplit. pose proof (split_audio_world audio_data chunk_duration w) as Hw.
  unfold process_audio, bind at 1.
  destruct (split_audio X audio_data chunk_duration w) as [r w1].
  simpl in *. by subst.
Qed.

Lemma process_audio_load_fails chunk_duration audio_data out w chunks e :
  (split_audio X audio_data chunk_duration w).1 = Ok chunks →
  load_model X "base" = Raise e →
  process_audio X chunk_duration audio_data out w
  = (Raise e,
     World (files w) (trace w ++ [EvDecode audio_data; EvLoadModel "base"])
           (hidden w)).
Proof.
  intros Hsplit Hload.
  pose proof (split_audio_world audio_data chunk_duration w) as Hw.
  unfold process_audio, bind at 1.
  destruct (split_audio X audio_data chunk_duration w) as [r w1].
  simpl in *. subst. unfold bind, Transcriber_init, log, lift. simpl.
  rewrite Hload. by rewrite <- app_assoc.
Qed.

(** The run once the chunks are cut and the model is loaded. *)
Lemma process_audio_run chunk_duration audio_data out w chunks self :
  (split_audio X audio_data chunk_duration w).1 = Ok chunks →
  load_model X "base" = Ok self →
  let segs := segments X self chunks (hidden w) in
  let calls :=
    trace w ++ [EvDecode audio_data; EvLoadModel "base"]
            ++ (EvTranscribe <$> take (length segs) chunks) in
  let h := hidden_after X self chunks (hidden w) in
  process_audio X chunk_duration audio_data out w
  = match assemble "" segs with
    | Ok full_text =>
        (Ok (),
         World (<[out := full_text]> (files w))
               (calls ++ [EvWrite out full_text; EvPrint (success_message out)])
               h)
    | Raise e => (Raise e, World (files w) calls h)
    end.
Proof.
  intros Hsplit Hload segs calls h.
  pose proof (split_audio_world audio_data chunk_duration w) as Hw.
  unfold process_audio, bind at 1.
  destruct (split_audio X audio_data chunk_duration w) as [r w1].
  simpl in *. subst r w1.
  unfold bind at 1. unfold Transcriber_init, bind at 1, log, lift. simpl.
  rewrite Hload. unfold bind at 1. rewrite transcribe_loop_run. simpl.
  fold segs h. subst calls.
  destruct (assemble "" segs) as [full_text|e].
  - unfold bind, save_text, log. simpl.
    by rewrite <- !app_assoc.
  - by rewrite <- !app_assoc.
Qed.

(** *** The steps before the audio is split *)

Lemma download_video_run video_url w :
  download_video X video_url w
  = (match requests_get X video_url with
     | Ok content => Ok (PyBytesIO content)
     | Raise e => Raise e
     end,
     World (files w) (trace w ++ [EvGet video_url]) (hidden w)).
Proof.
  unfold download_video, bind, log, lift, ret. simpl.
  by destruct (requests_get X video_url).
Qed.

Lemma extract_audio_bytes (b : bytes) w :
  extract_audio X (PyBytes b) w
  = (match ffmpeg_run X b with
     | Ok _ => Ok []
     | Raise e => Raise e
     end,
     World (files w) (trace w ++ [EvFfmpeg b]) (hidden w)).
Proof.
  unfold extract_audio, bind, log, lift, ret. simpl.
  by destruct (ffmpeg_run X b).
Qed.

Lemma extract_audio_BytesIO (b : bytes) w :
  extract_audio X (PyBytesIO b) w = (Raise TypeError, w).
Proof. reflexivity. Qed.

(** [process_video] hands the [io.BytesIO] of [download_video] to
    [extract_audio], whose first statement wraps it in [io.BytesIO]
    again: no run gets past that statement. *)
Lemma process_video_run video_url out w :
  process_video X video_url out w
  = (Raise (match requests_get X video_url with
            | Ok _ => TypeError
            | Raise e => e
            end),
     World (files w) (trace w ++ [EvGet video_url]) (hidden w)).
Proof.
  unfold process_video, bind at 1. rewrite download_video_run.
  destruct (requests_get X video_url) as [content|e]; [|done].
  unfold bind. by rewrite extract_audio_BytesIO.
Qed.

End Processor.

(** ** Shape of the chunk sequence *)

Section Strides.
Context {frame : Type}.
Implicit Types audio : list frame.

Lemma length_strides audio (step : Z) :
  (0 < step)%Z →
  Z.of_nat (length (strides audio step))
  = ((Z.of_nat (length audio) + step - 1) `div` step)%Z.
Proof.
  intros Hstep. unfold strides. rewrite length_fmap, length_seq.
  apply Z2Nat.id.
  by destruct (ceil_div_bounds (Z.of_nat (length audio)) step) as [? _]; [lia..|].
Qed.

Lemma strides_bounds audio (step : Z) :
  (0 < step)%Z →
  let n := Z.of_nat (length (strides audio step)) in
  ((n - 1) * step < Z.of_nat (length audio) ≤ n * step)%Z.
Proof.
  intros Hstep n. subst n. rewrite length_strides by done.
  by destruct (ceil_div_bounds (Z.of_nat (length audio)) step) as [_ ?]; [lia..|].
Qed.

Lemma strides_lookup audio (step : Z) (i : nat) seg :
  strides audio step !! i = Some seg →
  i < length (strides audio step)
  ∧ seg = take (Z.to_nat step) (drop (i * Z.to_nat step) audio).
Proof.
  intros Hi. split; [by eapply lookup_lt_Some|].
  unfold strides in Hi. rewrite list_lookup_fmap in Hi.
  destruct (seq _ _ !! i) as [j|] eqn:Hj; [|done].
  apply lookup_seq in Hj as [-> _]. simpl in Hi. by injection Hi as <-.
Qed.

Lemma concat_take_strides audio (step : Z) (i : nat) :
  i ≤ length (strides audio step) →
  concat (take i (strides audio step)) = take (i * Z.to_nat step) audio.
Proof.
  unfold strides. rewrite length_fmap, length_seq. intros Hi.
  rewrite <- fmap_take, take_seq, Nat.min_l by done.
  apply concat_strides.
Qed.

Lemma concat_all_strides audio (step : Z) :
  (0 < step)%Z → concat (strides audio step) = audio.
Proof.
  intros Hstep.
  rewrite <- (take_ge (strides audio step) (length (strides audio step))) by done.
  rewrite concat_take_strides by done. apply take_ge.
  pose proof (strides_bounds audio step Hstep) as Hb. cbv zeta in Hb. nia.
Qed.

Lemma last_strides audio (step : Z) seg :
  last (strides audio step) = Some seg →
  ∃ k : nat, length (strides audio step) = S k
             ∧ seg = take (Z.to_nat step) (drop (k * Z.to_nat step) audio).
Proof.
  unfold strides. rewrite length_fmap, length_seq.
  destruct (Z.to_nat (_ `div` _)) as [|k]; [by simpl|].
  rewrite seq_S, fmap_app. simpl. rewrite last_snoc.
  intros [= <-]. by exists k.
Qed.

End Strides.

(** ** Segmentation: the chunk sequence *)

(** C1: for every [chunk_duration > 0] and every decoded audio of [D]
    milliseconds, [split_audio] returns the exported chunks of a sequence
    [segs] with: [ceil (D / step)] elements for [step = chunk_duration * 1000]
    (none when [D = 0]); the chunks laid end to end are the audio, so they
    cover [[0, D)] once, in order, without gap or overlap; chunk [i] starts
    at offset [i * step], where the chunks before it end, and holds the
    next [step] milliseconds of what is left; the last chunk lasts
    [D mod step], or [step] when that remainder is 0. *)
Theorem C1_split_audio_chunks {frame wave model H}
    (X : externals frame wave model H)
    (audio_data : bytes) (audio : list frame) (chunk_duration : Z) (w : world H) :
  (0 < chunk_duration)%Z →
  from_file X audio_data = Ok audio →
  let D := Z.of_nat (length audio) in
  let step := (chunk_duration * 1000)%Z in
  ∃ segs : list (list frame),
    (split_audio X audio_data chunk_duration w).1 = Ok (export X <$> segs)
    ∧ Z.of_nat (length segs) = ((D + step - 1) `div` step)%Z
    ∧ ((Z.of_nat (length segs) - 1) * step < D ≤ Z.of_nat (length segs) * step)%Z
    ∧ (D = 0%Z → segs = [])
    ∧ concat segs = audio
    ∧ (∀ (i : nat) seg, segs !! i = Some seg →
         (Z.of_nat i * step < D)%Z
         ∧ Z.of_nat (length (concat (take i segs))) = (Z.of_nat i * step)%Z
         ∧ seg = take (Z.to_nat step) (drop (Z.to_nat (Z.of_nat i * step)) audio)
         ∧ Z.of_nat (length seg) = Z.min step (D - Z.of_nat i * step))
    ∧ (∀ seg, last segs = Some seg →
         Z.of_nat (length seg)
         = if (D `mod` step =? 0)%Z then step else (D `mod` step)%Z).
Proof.
  intros Hcd Hdec D step.
  assert (0 < step)%Z as Hstep by (subst step; lia).
  exists (strides audio step).
  pose proof (strides_bounds audio step Hstep) as Hb. cbv zeta in Hb. fold D in Hb.
  assert (∀ i : nat, Z.to_nat (Z.of_nat i * step) = i * Z.to_nat step) as Hoff.
  { intros i. rewrite Z2Nat.inj_mul, Nat2Z.id by lia. done. }
  split_and!.
  - by rewrite (split_audio_forward X audio_data audio) by done.
  - by apply length_strides.
  - lia.
  - lia.
  - intros HD. apply length_zero_iff_nil. nia.
  - by apply concat_all_strides.
  - intros i seg Hi. apply strides_lookup in Hi as [Hlt ->].
    assert (Z.of_nat i * step < D)%Z as Hin by nia.
    split_and!.
    + done.
    + rewrite concat_take_strides by lia. rewrite length_take. subst D. nia.
    + by rewrite Hoff.
    + rewrite length_stride. subst D. nia.
  - intros seg Hlast. apply last_strides in Hlast as (k & Hk & ->).
    rewrite Hk in Hb. rewrite length_stride.
    destruct (Z.eq_dec D (Z.of_nat (S k) * step)) as [Hfull|Hshort].
    + replace (D `mod` step)%Z with 0%Z; [simpl; subst D; nia|].
      symmetry. rewrite Hfull. apply Z.mod_mul. lia.
    + assert (D `mod` step = D - Z.of_nat k * step)%Z as Hmod.
      { symmetry. apply (Z.mod_unique _ _ (Z.of_nat k)); lia. }
      rewrite Hmod.
      destruct (Z.eqb_spec (D - Z.of_nat k * step) 0) as [?|_]; subst D; nia.
Qed.

Lemma C1_split_audio_chunks_witness :
  ∃ segs : list bytes,
    (split_audio Toy.libs (Toy.sound 2 Byte.x61 ++ Toy.sound 1 Byte.x62) 1 Toy.w0).1
    = Ok segs
    ∧ length segs = 3.
Proof.
  destruct (C1_split_audio_chunks Toy.libs
              (Toy.sound 2 Byte.x61 ++ Toy.sound 1 Byte.x62)
              (Toy.sound 2 Byte.x61 ++ Toy.sound 1 Byte.x62) 1 Toy.w0)
    as (segs & Hsplit & Hlen & _).
  - lia.
  - reflexivity.
  - exists (export Toy.libs <$> segs). split; [exact Hsplit|].
    rewrite length_fmap. apply Nat2Z.inj. rewrite Hlen. compute_done.
Defined.

(** C7: for every [chunk_duration > 0], with [step = chunk_duration * 1000]:
    a (non-empty) audio strictly shorter than [step] yields exactly one
    chunk, the whole audio; an audio that lasts a positive multiple
    [k * step] yields [k] chunks that all last exactly [step], so no short
    trailing chunk; an audio of duration 0 yields the empty sequence. *)
Theorem C7_split_audio_edge_cases {frame wave model H}
    (X : externals frame wave model H)
    (audio_data : bytes) (audio : list frame) (chunk_duration : Z) (w : world H) :
  (0 < chunk_duration)%Z →
  from_file X audio_data = Ok audio →
  let D := Z.of_nat (length audio) in
  let step := (chunk_duration * 1000)%Z in
  ((0 < D < step)%Z →
     (split_audio X audio_data chunk_duration w).1 = Ok [export X audio])
  ∧ (∀ k : Z, (0 < k)%Z → D = (k * step)%Z →
       ∃ segs : list (list frame),
         (split_audio X audio_data chunk_duration w).1 = Ok (export X <$> segs)
         ∧ Z.of_nat (length segs) = k
         ∧ Forall (λ seg, Z.of_nat (length seg) = step) segs
         ∧ concat segs = audio)
  ∧ (D = 0%Z → (split_audio X audio_data chunk_duration w).1 = Ok []).
Proof.
  intros Hcd Hdec D step.
  assert (0 < step)%Z as Hstep by (subst step; lia).
  rewrite (split_audio_forward X audio_data audio) by done. cbn [fst]. fold step.
  pose proof (strides_bounds audio step Hstep) as Hb. cbv zeta in Hb. fold D in Hb.
  pose proof (length_strides audio step Hstep) as Hlen. fold D in Hlen.
  split_and!.
  - intros HD.
    assert (Z.to_nat ((D + step - 1) `div` step) = 1) as Hone by nia.
    unfold strides. fold D. rewrite Hone. cbn [seq fmap list_fmap].
    change (0 * Z.to_nat step) with 0. rewrite drop_0.
    rewrite take_ge by (subst D; lia). done.
  - intros k Hk HD. exists (strides audio step). split_and!.
    + done.
    + nia.
    + assert (Z.of_nat (length (strides audio step)) = k) as Hn by nia.
      apply Forall_lookup. intros i seg Hi.
      apply strides_lookup in Hi as [Hlt ->].
      assert ((Z.of_nat i + 1) * step ≤ D)%Z as Hfit by nia.
      rewrite length_stride.
      assert (Z.of_nat (i * Z.to_nat step) = Z.of_nat i * step)%Z as Hoff
        by (rewrite Nat2Z.inj_mul; lia).
      subst D. lia.
    + by apply concat_all_strides.
  - intros HD.
    assert (strides audio step = []) as ->; [|done].
    apply length_zero_iff_nil. nia.
Qed.

Lemma C7_split_audio_edge_cases_witness :
  (split_audio Toy.libs (Toy.sound 5 Byte.x63) 30 Toy.w0).1
  = Ok [Toy.sound 5 Byte.x63].
Proof.
  refine (proj1 (C7_split_audio_edge_cases Toy.libs
                   (Toy.sound 5 Byte.x63) (Toy.sound 5 Byte.x63) 30 Toy.w0 _ _) _).
  - lia.
  - reflexivity.
  - compute_done.
Defined.

(** ** Segmentation: a chunk duration that is not positive *)

(** Against C4. [split_audio] has no check of [chunk_duration]: with -1 it
    returns the empty chunk sequence without any failure, and the run goes
    on to write an empty transcript; with 0 it fails, but only in [range],
    once the decoder has been called; and [process_video] starts with the
    download in any case. *)
Lemma C4_counterexample :
  (split_audio Toy.libs [Byte.x61; Byte.x62] (-1) Toy.w0).1 = Ok []
  ∧ split_audio Toy.libs [Byte.x61; Byte.x62] 0 Toy.w0
    = (Raise ValueError, World ∅ [EvDecode [Byte.x61; Byte.x62]] 0)
  ∧ (process_audio Toy.libs (-1) [Byte.x61; Byte.x62] Toy.out Toy.w0).1 = Ok ()
  ∧ (process_video Toy.libs "http://host/video" Toy.out Toy.w0).2
    = World ∅ [EvGet "http://host/video"] 0.
Proof. compute_done. Qed.

(** C4, as the code has it: [chunk_duration = 0] makes [split_audio] raise
    the [ValueError] of [range], after the audio has been handed to the
    decoder and only if that succeeded; [chunk_duration < 0] is no failure
    at all, the chunk sequence is then empty; and a run of
    [process_video], which never passes a duration, starts with the
    download whatever else happens. *)
Theorem C4_chunk_duration_not_positive {frame wave model H}
    (X : externals frame wave model H)
    (audio_data : bytes) (audio : list frame) (chunk_duration : Z) (w : world H) :
  (chunk_duration ≤ 0)%Z →
  from_file X audio_data = Ok audio →
  split_audio X audio_data chunk_duration w
  = (if (chunk_duration =? 0)%Z then Raise ValueError else Ok [],
     World (files w) (trace w ++ [EvDecode audio_data]) (hidden w))
  ∧ ∀ video_url out,
      ∃ calls, trace (process_video X video_url out w).2
               = trace w ++ EvGet video_url :: calls.
Proof.
  intros Hcd Hdec. split.
  - destruct (Z.eqb_spec chunk_duration 0) as [->|Hne].
    + by apply split_audio_zero with audio.
    + apply split_audio_backward with audio; [lia|done].
  - intros video_url out. exists []. by rewrite process_video_run.
Qed.

Lemma C4_chunk_duration_not_positive_witness :
  split_audio Toy.libs [Byte.x61] 0 Toy.w0
  = (Raise ValueError, World ∅ [EvDecode [Byte.x61]] 0).
Proof.
  refine (proj1 (C4_chunk_duration_not_positive Toy.libs
                   [Byte.x61] [Byte.x61] 0 Toy.w0 _ _)).
  - lia.
  - reflexivity.
Defined.

(** ** The transcription loop: one chunk fails *)

(** Against C2. In the 65 seconds of [Toy.a_c] the model hears "a" in
    chunk 0, fails on chunk 1 and would hear "c" in chunk 2. The policy of
    the specification gives the transcript "a\nc\n" and a successful run;
    the loop stops at chunk 1 with its exception, chunk 2 is never
    transcribed and no file is written. *)
Lemma C2_counterexample :
  (split_audio Toy.libs Toy.a_c 30 Toy.w0).1
  = Ok [Toy.sound 30 Byte.x61; Toy.sound 30 Byte.x00; Toy.sound 5 Byte.x63]
  ∧ Spec.run ((λ chunk, (engine Toy.libs () chunk 0).1)
              <$> [Toy.sound 30 Byte.x61; Toy.sound 30 Byte.x00; Toy.sound 5 Byte.x63])
    = Some ("a" +:+ newline +:+ "c" +:+ newline)
  ∧ process_audio Toy.libs 30 Toy.a_c Toy.out Toy.w0
    = (Raise (LibraryError Whisper "no speech"),
       World ∅ [EvDecode Toy.a_c; EvLoadModel "base";
                EvTranscribe (Toy.sound 30 Byte.x61);
                EvTranscribe (Toy.sound 30 Byte.x00)] 2)
  ∧ (process_audio Toy.libs 30 Toy.a_c Toy.out Toy.w0).1 ≠ Ok ()
  ∧ EvTranscribe (Toy.sound 5 Byte.x63)
    ∉ trace (process_audio Toy.libs 30 Toy.a_c Toy.out Toy.w0).2.
Proof. compute_done. Qed.

(** C2, as the code has it: when chunk [k] is the first chunk whose
    transcription fails, the loop is aborted by that chunk's exception:
    the run ends with it instead of reporting success, the chunks after
    [k] are never transcribed, and nothing is written. *)
Theorem C2_first_failure_aborts {frame wave model H}
    (X : externals frame wave model H)
    (chunk_duration : Z) (audio_data : bytes) (out : string) (w : world H)
    (self : model) (before after : list bytes) (chunk : bytes)
    (texts : list string) (e : exn) :
  (split_audio X audio_data chunk_duration w).1 = Ok (before ++ chunk :: after) →
  load_model X "base" = Ok self →
  Forall2 (λ c t, answers X self c (Ok t)) before texts →
  answers X self chunk (Raise e) →
  let run := process_audio X chunk_duration audio_data out w in
  run.1 = Raise e
  ∧ trace run.2
    = trace w ++ [EvDecode audio_data; EvLoadModel "base"]
              ++ (EvTranscribe <$> before ++ [chunk])
  ∧ files run.2 = files w.
Proof.
  intros Hsplit Hload Hbefore Hfail run. subst run.
  rewrite (process_audio_run X _ _ _ _ _ self Hsplit Hload).
  rewrite (segments_fail_at X self before after chunk texts e) by done.
  rewrite assemble_raise. cbn [fst snd trace files].
  split_and!; [done| |done].
  do 2 f_equal. rewrite length_app, length_fmap. cbn [length].
  apply Forall2_length in Hbefore. rewrite <- Hbefore.
  rewrite take_app_ge by lia.
  replace (length before + 1 - length before) with 1 by lia.
  reflexivity.
Qed.

Lemma C2_first_failure_aborts_witness :
  (process_audio Toy.libs 30 Toy.a_c Toy.out Toy.w0).1
  = Raise (LibraryError Whisper "no speech").
Proof.
  refine (proj1 (C2_first_failure_aborts Toy.libs 30 Toy.a_c Toy.out Toy.w0 ()
                   [Toy.sound 30 Byte.x61] [Toy.sound 5 Byte.x63]
                   (Toy.sound 30 Byte.x00) ["a"]
                   (LibraryError Whisper "no speech") _ _ _ _)).
  - compute_done.
  - reflexivity.
  - repeat constructor.
  - intros h. reflexivity.
Defined.

(** ** The transcription loop: the transcript *)

(** Against C3. On [Toy.a_c] the text of the successful segments, joined
    as the specification says, is "a\nc\n"; the loop of the code ends in
    the exception of chunk 1 and leaves no transcript, neither as its
    result nor in the output file. *)
Lemma C3_counterexample :
  Spec.transcript
    (imap Spec.segment_of
       ((λ chunk, (engine Toy.libs () chunk 0).1)
        <$> [Toy.sound 30 Byte.x61; Toy.sound 30 Byte.x00; Toy.sound 5 Byte.x63]))
  = "a" +:+ newline +:+ "c" +:+ newline
  ∧ (transcribe_loop Toy.libs () ""
       [Toy.sound 30 Byte.x61; Toy.sound 30 Byte.x00; Toy.sound 5 Byte.x63]
       Toy.w0).1
    = Raise (LibraryError Whisper "no speech")
  ∧ (transcribe_loop Toy.libs () ""
       [Toy.sound 30 Byte.x61; Toy.sound 30 Byte.x00; Toy.sound 5 Byte.x63]
       Toy.w0).1
    ≠ Ok ("a" +:+ newline +:+ "c" +:+ newline)
  ∧ files (process_audio Toy.libs 30 Toy.a_c Toy.out Toy.w0).2 !! Toy.out
    ≠ Some ("a" +:+ newline +:+ "c" +:+ newline).
Proof. compute_done. Qed.

(** C3, as the code has it: when the transcription of every chunk
    succeeds, the text written is the text of every chunk in chunk order,
    each followed by one newline (when one fails there is no transcript).
    In particular 65 seconds of audio split with [chunk_duration = 30] are
    3 chunks of 30 s, 30 s and 5 s, and if the model answers "a", "b" and
    "c" the transcript is "a\nb\nc\n". *)
Theorem C3_transcript_of_successes {frame wave model H}
    (X : externals frame wave model H)
    (chunk_duration : Z) (audio_data : bytes) (out : string) (w : world H)
    (self : model) (chunks : list bytes) :
  (split_audio X audio_data chunk_duration w).1 = Ok chunks →
  load_model X "base" = Ok self →
  let run := process_audio X chunk_duration audio_data out w in
  (∀ texts : list string,
     Forall2 (λ c t, answers X self c (Ok t)) chunks texts →
     run.1 = Ok ()
     ∧ (transcribe_loop X self "" chunks w).1 = Ok (join_lines texts)
     ∧ files run.2 = <[out := join_lines texts]> (files w))
  ∧ (∀ audio : list frame,
       chunk_duration = 30%Z →
       from_file X audio_data = Ok audio →
       Z.of_nat (length audio) = 65000%Z →
       ∃ s0 s1 s2 : list frame,
         chunks = export X <$> [s0; s1; s2]
         ∧ s0 ++ s1 ++ s2 = audio
         ∧ Z.of_nat (length s0) = 30000%Z
         ∧ Z.of_nat (length s1) = 30000%Z
         ∧ Z.of_nat (length s2) = 5000%Z
         ∧ (answers X self (export X s0) (Ok "a") →
            answers X self (export X s1) (Ok "b") →
            answers X self (export X s2) (Ok "c") →
            run.1 = Ok ()
            ∧ files run.2 !! out
              = Some ("a" +:+ newline +:+ "b" +:+ newline +:+ "c" +:+ newline))).
Proof.
  intros Hsplit Hload run.
  assert (∀ texts : list string,
            Forall2 (λ c t, answers X self c (Ok t)) chunks texts →
            run.1 = Ok ()
            ∧ (transcribe_loop X self "" chunks w).1 = Ok (join_lines texts)
            ∧ files run.2 = <[out := join_lines texts]> (files w)) as Hgeneral.
  { intros texts Hall. subst run.
    rewrite (process_audio_run X _ _ _ _ _ self Hsplit Hload).
    rewrite transcribe_loop_run.
    rewrite (segments_all_ok X self chunks texts) by done.
    rewrite assemble_oks. done. }
  split; [exact Hgeneral|].
  intros audio -> Hdec Hlen.
  rewrite (split_audio_forward X audio_data audio) in Hsplit by done.
  cbn [fst] in Hsplit. injection Hsplit as <-.
  change (30 * 1000)%Z with 30000%Z in *.
  assert (strides audio 30000
          = (λ i, take (Z.to_nat 30000) (drop (i * Z.to_nat 30000) audio))
            <$> [0; 1; 2]) as Hstr.
  { unfold strides. rewrite Hlen. reflexivity. }
  cbn [fmap list_fmap] in Hstr.
  set (s := Z.to_nat 30000) in *.
  assert (Z.of_nat s = 30000%Z) as Hs by (subst s; lia).
  exists (take s (drop (0 * s) audio)), (take s (drop (1 * s) audio)),
         (take s (drop (2 * s) audio)).
  split_and!.
  - by rewrite Hstr.
  - rewrite <- (concat_all_strides audio 30000) at 4 by lia.
    rewrite Hstr. cbn [concat]. by rewrite app_nil_r.
  - rewrite length_stride. lia.
  - rewrite length_stride. lia.
  - rewrite length_stride. lia.
  - intros Ha Hb Hc.
    destruct (Hgeneral ["a"; "b"; "c"]) as (Hok & _ & Hfiles).
    { rewrite Hstr. cbn [fmap list_fmap]. by repeat constructor. }
    split; [done|]. rewrite Hfiles, lookup_insert_eq. reflexivity.
Qed.

Lemma C3_transcript_of_successes_witness :
  files (process_audio Toy.libs 30 Toy.abc Toy.out Toy.w0).2 !! Toy.out
  = Some ("a" +:+ newline +:+ "b" +:+ newline +:+ "c" +:+ newline).
Proof.
  destruct (C3_transcript_of_successes Toy.libs 30 Toy.abc Toy.out Toy.w0 ()
              [Toy.sound 30 Byte.x61; Toy.sound 30 Byte.x62; Toy.sound 5 Byte.x63])
    as [_ Hexample].
  - compute_done.
  - reflexivity.
  - destruct (Hexample Toy.abc) as (s0 & s1 & s2 & Hchunks & _ & _ & _ & _ & Hrun).
    + reflexivity.
    + reflexivity.
    + compute_done.
    + cbn [fmap list_fmap] in Hchunks. injection Hchunks as H0 H1 H2.
      apply Hrun; intros h; [rewrite <- H0|rewrite <- H1|rewrite <- H2]; reflexivity.
Defined.

(** ** The transcription loop: every chunk fails *)

(** Against C5. Both chunks of 40 seconds of silence then noise fail, the
    first with "silence", the second with "noise". The [TranscriptionFailed]
    of the specification aggregates the two errors; the run of the code
    ends with the exception of chunk 0 as it is, after one call to the
    model: chunk 1 is never transcribed and its error appears nowhere. *)
Lemma C5_counterexample :
  (split_audio Noisy.libs (Toy.sound 30 Byte.x00 ++ Toy.sound 10 Byte.x01) 30
     Toy.w0).1
  = Ok [Toy.sound 30 Byte.x00; Toy.sound 10 Byte.x01]
  ∧ (λ chunk, (engine Noisy.libs () chunk 0).1)
    <$> [Toy.sound 30 Byte.x00; Toy.sound 10 Byte.x01]
    = [Raise (LibraryError Whisper "silence"); Raise (LibraryError Whisper "noise")]
  ∧ Spec.transcription_failed
      [Raise (LibraryError Whisper "silence"); Raise (LibraryError Whisper "noise")]
    = Some [LibraryError Whisper "silence"; LibraryError Whisper "noise"]
  ∧ process_audio Noisy.libs 30 (Toy.sound 30 Byte.x00 ++ Toy.sound 10 Byte.x01)
      Toy.out Toy.w0
    = (Raise (LibraryError Whisper "silence"),
       World ∅ [EvDecode (Toy.sound 30 Byte.x00 ++ Toy.sound 10 Byte.x01);
                EvLoadModel "base";
                EvTranscribe (Toy.sound 30 Byte.x00)] 1)
  ∧ EvTranscribe (Toy.sound 10 Byte.x01)
    ∉ trace (process_audio Noisy.libs 30
               (Toy.sound 30 Byte.x00 ++ Toy.sound 10 Byte.x01) Toy.out Toy.w0).2.
Proof. compute_done. Qed.

(** C5, as the code has it: when the transcription of the first chunk
    fails, and so whenever the transcription of every chunk of a non-empty
    sequence would fail, the run fails with the exception raised for that
    first chunk, as it is: the loop stops after that one call, the chunks
    that follow are never transcribed, no error is gathered from them, and
    no output file is written. *)
Theorem C5_first_chunk_failure_aborts {frame wave model H}
    (X : externals frame wave model H)
    (chunk_duration : Z) (audio_data : bytes) (out : string) (w : world H)
    (self : model) (chunk : bytes) (rest : list bytes) (e : exn) :
  (split_audio X audio_data chunk_duration w).1 = Ok (chunk :: rest) →
  load_model X "base" = Ok self →
  (engine X self chunk (hidden w)).1 = Raise e →
  process_audio X chunk_duration audio_data out w
  = (Raise e,
     World (files w)
           (trace w ++ [EvDecode audio_data; EvLoadModel "base"; EvTranscribe chunk])
           (engine X self chunk (hidden w)).2).
Proof.
  intros Hsplit Hload Hfail.
  rewrite (process_audio_run X _ _ _ _ _ self Hsplit Hload).
  cbn [segments hidden_after].
  destruct (engine X self chunk (hidden w)) as [r h'] eqn:Heng.
  cbn [fst snd] in *. subst r.
  cbn [assemble length take fmap list_fmap]. by rewrite take_0.
Qed.

Lemma C5_first_chunk_failure_aborts_witness :
  process_audio Toy.libs 30 (Toy.sound 40 Byte.x00) Toy.out Toy.w0
  = (Raise (LibraryError Whisper "no speech"),
     World ∅ [EvDecode (Toy.sound 40 Byte.x00); EvLoadModel "base";
              EvTranscribe (Toy.sound 30 Byte.x00)] 1).
Proof.
  refine (C5_first_chunk_failure_aborts Toy.libs 30 (Toy.sound 40 Byte.x00)
            Toy.out Toy.w0 () (Toy.sound 30 Byte.x00) [Toy.sound 10 Byte.x00]
            (LibraryError Whisper "no speech") _ _ _).
  - compute_done.
  - reflexivity.
  - reflexivity.
Defined.

(** ** The transcription loop: order *)

(** C6: in every run that reaches the loop, the chunks are transcribed in
    ascending chunk order, chunk after chunk from chunk 0 on, and only
    after [split_audio] has produced the whole sequence; the [i]-th text
    gathered is the model's answer to chunk [i]; and the text written by a
    successful run is these texts joined in chunk order. *)
Theorem C6_chunk_order {frame wave model H}
    (X : externals frame wave model H)
    (chunk_duration : Z) (audio_data : bytes) (out : string) (w : world H)
    (self : model) (chunks : list bytes) :
  (split_audio X audio_data chunk_duration w).1 = Ok chunks →
  load_model X "base" = Ok self →
  let run := process_audio X chunk_duration audio_data out w in
  ∃ (n : nat) (texts : list string) (tail : list event),
    n ≤ length chunks
    ∧ length texts ≤ n ≤ S (length texts)
    ∧ trace run.2
      = trace w ++ [EvDecode audio_data; EvLoadModel "base"]
                ++ (EvTranscribe <$> take n chunks) ++ tail
    ∧ Forall (λ ev, is_transcribe ev = false) tail
    ∧ (∀ (i : nat) text, texts !! i = Some text →
         i < n
         ∧ ∃ chunk, chunks !! i = Some chunk
                    ∧ (engine X self chunk
                         (hidden_after X self (take i chunks) (hidden w))).1
                      = Ok text)
    ∧ (run.1 = Ok () →
         n = length chunks ∧ length texts = length chunks
         ∧ files run.2 !! out = Some (join_lines texts)).
Proof.
  intros Hsplit Hload run. subst run.
  rewrite (process_audio_run X _ _ _ _ _ self Hsplit Hload).
  pose proof (length_segments X self chunks (hidden w)) as Hle.
  pose proof (segments_lookup X self chunks (hidden w)) as Hlookup.
  destruct (segments_shape X self chunks (hidden w))
    as (texts & [[Hsegs Hlen]|(e & Hsegs & Hlen)]).
  - exists (length chunks), texts,
           [EvWrite out (join_lines texts); EvPrint (success_message out)].
    rewrite Hsegs in *. rewrite assemble_oks. rewrite length_fmap, Hlen.
    cbn [fst snd trace files]. split_and!.
    + done.
    + lia.
    + lia.
    + by rewrite <- !app_assoc.
    + by repeat constructor.
    + intros i text Hi. split; [apply lookup_lt_Some in Hi; lia|].
      destruct (Hlookup i (Ok text)) as (chunk & Hchunk & Heng).
      { by rewrite list_lookup_fmap, Hi. }
      by exists chunk.
    + intros _. split_and!; [done..|]. by rewrite lookup_insert_eq.
  - exists (S (length texts)), texts, [].
    rewrite Hsegs in *. rewrite assemble_raise.
    rewrite length_app, length_fmap. cbn [length fst snd trace files].
    replace (length texts + 1) with (S (length texts)) by lia.
    split_and!.
    + lia.
    + lia.
    + lia.
    + by rewrite app_nil_r.
    + constructor.
    + intros i text Hi. split; [apply lookup_lt_Some in Hi; lia|].
      destruct (Hlookup i (Ok text)) as (chunk & Hchunk & Heng).
      { rewrite lookup_app_l by (rewrite length_fmap; by eapply lookup_lt_Some).
        by rewrite list_lookup_fmap, Hi. }
      by exists chunk.
    + done.
Qed.

Lemma C6_chunk_order_witness :
  ∃ (n : nat) (tail : list event),
    trace (process_audio Toy.libs 30 Toy.abc Toy.out Toy.w0).2
    = [EvDecode Toy.abc; EvLoadModel "base"]
      ++ (EvTranscribe
            <$> take n [Toy.sound 30 Byte.x61; Toy.sound 30 Byte.x62;
                        Toy.sound 5 Byte.x63])
      ++ tail.
Proof.
  destruct (C6_chunk_order Toy.libs 30 Toy.abc Toy.out Toy.w0 ()
              [Toy.sound 30 Byte.x61; Toy.sound 30 Byte.x62; Toy.sound 5 Byte.x63])
    as (n & texts & tail & _ & _ & Htrace & _).
  - compute_done.
  - reflexivity.
  - exists n, tail. exact Htrace.
Defined.

(** ** The transcription loop: determinism *)

Lemma split_audio_result {frame wave model H} (X : externals frame wave model H)
    (audio_data : bytes) (chunk_duration : Z) (w1 w2 : world H) :
  (split_audio X audio_data chunk_duration w1).1
  = (split_audio X audio_data chunk_duration w2).1.
Proof.
  unfold split_audio, bind, log, lift, ret. cbn [fst snd].
  destruct (from_file X audio_data) as [audio|e]; [|done].
  by destruct (range _ _ _).
Qed.

(** C8: with a model whose answer to a chunk does not depend on its hidden
    state, two runs on the same audio buffer with the same
    [chunk_duration] end alike whatever the worlds they start in, the
    world left by the first run included: both raise the same exception or
    both write the same text, byte for byte. *)
Theorem C8_deterministic_transcript {frame wave model H}
    (X : externals frame wave model H)
    (chunk_duration : Z) (audio_data : bytes) (out : string) (w1 w2 : world H) :
  deterministic_engine X →
  let run1 := process_audio X chunk_duration audio_data out w1 in
  let run2 := process_audio X chunk_duration audio_data out w2 in
  let again := process_audio X chunk_duration audio_data out run1.2 in
  run1.1 = run2.1
  ∧ run1.1 = again.1
  ∧ (run1.1 = Ok () →
       ∃ full_text : string,
         files run1.2 = <[out := full_text]> (files w1)
         ∧ files run2.2 = <[out := full_text]> (files w2)
         ∧ files again.2 !! out = Some full_text)
  ∧ (∀ self chunks,
       (transcribe_loop X self "" chunks w1).1
       = (transcribe_loop X self "" chunks w2).1).
Proof.
  intros Hdet.
  assert (∀ wa wb : world H,
            let runa := process_audio X chunk_duration audio_data out wa in
            let runb := process_audio X chunk_duration audio_data out wb in
            runa.1 = runb.1
            ∧ (runa.1 = Ok () →
                 ∃ full_text : string,
                   files runa.2 = <[out := full_text]> (files wa)
                   ∧ files runb.2 = <[out := full_text]> (files wb))) as Hpair.
  { intros wa wb runa runb. subst runa runb.
    pose proof (split_audio_result X audio_data chunk_duration wa wb) as Hres.
    destruct (split_audio X audio_data chunk_duration wa).1 as [chunks|e] eqn:Ha.
    - symmetry in Hres.
      destruct (load_model X "base") as [self|e] eqn:Hload.
      + rewrite (process_audio_run X _ _ _ wa _ self Ha Hload).
        rewrite (process_audio_run X _ _ _ wb _ self Hres Hload).
        rewrite (segments_deterministic X self chunks (hidden wa) (hidden wb) Hdet).
        destruct (assemble "" (segments X self chunks (hidden wb))) as [full_text|e];
          cbn [fst snd files]; [|done].
        split; [done|]. intros _. by exists full_text.
      + rewrite (process_audio_load_fails X _ _ _ wa chunks e Ha Hload).
        rewrite (process_audio_load_fails X _ _ _ wb chunks e Hres Hload).
        done.
    - symmetry in Hres.
      rewrite (process_audio_split_fails X _ _ _ wa e Ha).
      rewrite (process_audio_split_fails X _ _ _ wb e Hres). done. }
  intros run1 run2 again.
  destruct (Hpair w1 w2) as [Heq12 Hfiles12].
  destruct (Hpair w1 run1.2) as [Heq1a Hfiles1a].
  split_and!.
  - exact Heq12.
  - exact Heq1a.
  - intros Hok.
    destruct (Hfiles12 Hok) as (t & Ht1 & Ht2).
    destruct (Hfiles1a Hok) as (t' & Ht1' & Hta).
    exists t. split_and!; [done..|].
    assert (t = t') as ->.
    { assert (<[out := t]> (files w1) !! out = <[out := t']> (files w1) !! out) as Hl
        by (by rewrite <- Ht1, <- Ht1').
      rewrite !lookup_insert_eq in Hl. by injection Hl. }
    fold again in Hta. rewrite Hta. by rewrite lookup_insert_eq.
  - intros self chunks. rewrite !transcribe_loop_run. cbn [fst].
    by rewrite (segments_deterministic X self chunks (hidden w1) (hidden w2) Hdet).
Qed.

Lemma C8_deterministic_transcript_witness :
  (process_audio Toy.libs 30 Toy.abc Toy.out Toy.w0).1
  = (process_audio Toy.libs 30 Toy.abc Toy.out
       (World {[ Toy.out := "old" ]} [EvPrint "earlier"] 7)).1.
Proof.
  refine (proj1 (C8_deterministic_transcript Toy.libs 30 Toy.abc Toy.out Toy.w0
                   (World {[ Toy.out := "old" ]} [EvPrint "earlier"] 7) _)).
  intros self audio h1 h2. reflexivity.
Defined.

(** ** Errors and the output file *)

(** Against C9. The model hears "a" in chunk 0 and fails on chunk 1: one
    chunk was transcribed with success, and yet the run writes nothing. *)
Lemma C9_counterexample :
  (split_audio Toy.libs (Toy.sound 30 Byte.x61 ++ Toy.sound 5 Byte.x00) 30 Toy.w0).1
  = Ok [Toy.sound 30 Byte.x61; Toy.sound 5 Byte.x00]
  ∧ (engine Toy.libs () (Toy.sound 30 Byte.x61) 0).1 = Ok "a"
  ∧ (process_audio Toy.libs 30 (Toy.sound 30 Byte.x61 ++ Toy.sound 5 Byte.x00)
       Toy.out Toy.w0).1
    = Raise (LibraryError Whisper "no speech")
  ∧ files (process_audio Toy.libs 30 (Toy.sound 30 Byte.x61 ++ Toy.sound 5 Byte.x00)
             Toy.out Toy.w0).2
    = ∅.
Proof. compute_done. Qed.

(** C9, as the code has it: a run that ends in an exception, wherever it
    is raised (download, extraction, decoding, [range], loading the model,
    the transcription of any one chunk), ends before [save_text] is
    called: it writes no file and leaves the files as they were. Text is
    written only by a run in which every chunk was transcribed, and it is
    then the text of all the chunks. *)
Theorem C9_error_leaves_files {frame wave model H}
    (X : externals frame wave model H)
    (chunk_duration : Z) (audio_data : bytes) (video_url out : string)
    (w : world H) :
  let whole := process_video X video_url out w in
  let run := process_audio X chunk_duration audio_data out w in
  (∀ e, whole.1 = Raise e →
     files whole.2 = files w
     ∧ ∃ calls, trace whole.2 = trace w ++ calls
                ∧ Forall (λ ev, is_write ev = false) calls)
  ∧ (∀ e, run.1 = Raise e →
       files run.2 = files w
       ∧ ∃ calls, trace run.2 = trace w ++ calls
                  ∧ Forall (λ ev, is_write ev = false) calls)
  ∧ (run.1 = Ok () →
       ∃ (chunks : list bytes) (self : model) (texts : list string),
         (split_audio X audio_data chunk_duration w).1 = Ok chunks
         ∧ load_model X "base" = Ok self
         ∧ segments X self chunks (hidden w) = Ok <$> texts
         ∧ length texts = length chunks
         ∧ files run.2 = <[out := join_lines texts]> (files w)).
Proof.
  intros whole run. split_and!.
  - intros e _. subst whole. rewrite process_video_run. cbn [snd files trace].
    split; [done|]. eexists. split; [done|]. by repeat constructor.
  - subst run. intros e.
    destruct (split_audio X audio_data chunk_duration w).1 as [chunks|e1] eqn:Hsplit.
    + destruct (load_model X "base") as [self|e2] eqn:Hload.
      * rewrite (process_audio_run X _ _ _ _ _ self Hsplit Hload).
        destruct (assemble "" _) as [full_text|e3]; cbn [fst snd files trace];
          [done|]. intros _. split; [done|].
        eexists. split; [done|].
        repeat (apply Forall_cons; split; [done|]).
        apply Forall_fmap, Forall_forall. done.
      * rewrite (process_audio_load_fails X _ _ _ _ chunks e2 Hsplit Hload).
        cbn [snd files trace]. intros _. split; [done|].
        eexists. split; [done|]. by repeat constructor.
    + rewrite (process_audio_split_fails X _ _ _ _ e1 Hsplit).
      cbn [snd files trace]. intros _. split; [done|].
      eexists. split; [done|]. by repeat constructor.
  - subst run.
    destruct (split_audio X audio_data chunk_duration w).1 as [chunks|e1] eqn:Hsplit.
    + destruct (load_model X "base") as [self|e2] eqn:Hload.
      * rewrite (process_audio_run X _ _ _ _ _ self Hsplit Hload).
        destruct (segments_shape X self chunks (hidden w))
          as (texts & [[Hsegs Hlen]|(e & Hsegs & Hlen)]); rewrite Hsegs.
        -- rewrite assemble_oks. cbn [fst snd files]. intros _.
           by exists chunks, self, texts.
        -- by rewrite assemble_raise.
      * by rewrite (process_audio_load_fails X _ _ _ _ chunks e2 Hsplit Hload).
    + by rewrite (process_audio_split_fails X _ _ _ _ e1 Hsplit).
Qed.

Lemma C9_error_leaves_files_witness :
  files (process_video Toy.libs "http://host/video" Toy.out Toy.w0).2 = ∅.
Proof.
  refine (proj1 (proj1 (C9_error_leaves_files Toy.libs 30 Toy.abc
                          "http://host/video" Toy.out Toy.w0) TypeError _)).
  reflexivity.
Defined.

(** ** The extracted audio *)

(** Every run of steps 3 to 5 starts with the decoding of its audio. *)
Lemma process_audio_decodes_first {frame wave model H}
    (X : externals frame wave model H)
    (chunk_duration : Z) (audio_data : bytes) (out : string) (w : world H) :
  ∃ calls, trace (process_audio X chunk_duration audio_data out w).2
           = trace w ++ EvDecode audio_data :: calls.
Proof.
  destruct (split_audio X audio_data chunk_duration w).1 as [chunks|e1] eqn:Hsplit.
  - destruct (load_model X "base") as [self|e2] eqn:Hload.
    + rewrite (process_audio_run X _ _ _ _ _ self Hsplit Hload).
      destruct (assemble "" _) as [full_text|e3]; cbn [snd trace].
      * eexists. rewrite <- app_assoc. cbn [app]. reflexivity.
      * eexists. cbn [app]. reflexivity.
    + rewrite (process_audio_load_fails X _ _ _ _ chunks e2 Hsplit Hload).
      eexists. cbn [snd trace app]. reflexivity.
  - rewrite (process_audio_split_fails X _ _ _ _ e1 Hsplit).
    eexists. cbn [snd trace app]. reflexivity.
Qed.

(** C10: whatever the bytes of the video, the buffer that [extract_audio]
    returns is empty: what ffmpeg wrote to its standard output is dropped,
    a buffer is returned whenever ffmpeg succeeds, and the steps that
    follow, the decoding by [split_audio] first, are given that empty
    buffer. *)
Theorem C10_extract_audio_empty {frame wave model H}
    (X : externals frame wave model H) (video : bytes) (w : world H) :
  (∀ buf w', extract_audio X (PyBytes video) w = (Ok buf, w') → buf = [])
  ∧ (∀ stdout stderr, ffmpeg_run X video = Ok (stdout, stderr) →
       (extract_audio X (PyBytes video) w).1 = Ok [])
  ∧ (∀ chunk_duration out,
       let rest := bind (extract_audio X (PyBytes video))
                        (λ audio_data, process_audio X chunk_duration audio_data out) in
       is_ok (extract_audio X (PyBytes video) w).1 = true →
       rest w = process_audio X chunk_duration [] out
                  (World (files w) (trace w ++ [EvFfmpeg video]) (hidden w))
       ∧ ∃ calls, trace (rest w).2
                  = trace w ++ [EvFfmpeg video; EvDecode []] ++ calls).
Proof.
  split_and!.
  - intros buf w'. rewrite extract_audio_bytes.
    destruct (ffmpeg_run X video); [|done]. by intros [= <- _].
  - intros stdout stderr Hrun. rewrite extract_audio_bytes. by rewrite Hrun.
  - intros chunk_duration out rest. subst rest. unfold bind.
    rewrite extract_audio_bytes.
    destruct (ffmpeg_run X video); [|done]. intros _. split; [done|].
    set (w1 := World (files w) (trace w ++ [EvFfmpeg video]) (hidden w)).
    destruct (process_audio_decodes_first X chunk_duration [] out w1) as (calls & ->).
    exists calls. subst w1. cbn [trace]. by rewrite <- app_assoc.
Qed.

Lemma C10_extract_audio_empty_witness :
  (extract_audio Toy.libs (PyBytes [Byte.x61; Byte.x62]) Toy.w0).1 = Ok [].
Proof.
  refine (proj1 (proj2 (C10_extract_audio_empty Toy.libs [Byte.x61; Byte.x62] Toy.w0))
            [Byte.x61; Byte.x62] [] _).
  reflexivity.
Defined.

(** ** Further properties of the pipeline *)

Lemma length_concat_sum {A} (ls : list (list A)) :
  length (concat ls) = sum_list (length <$> ls).
Proof.
  induction ls as [|l ls IH]; [done|].
  cbn [concat fmap list_fmap sum_list sum_list_with]. by rewrite length_app, IH.
Qed.

(** X1: no run of [process_video] completes. A failed download ends the
    run with the exception of the download; a successful one ends it with
    the [TypeError] of [io.BytesIO(self.video_data)], because
    [download_video] returns an [io.BytesIO] instead of [bytes]. In both
    cases the GET is the only call made: ffmpeg, the decoder and the model
    are never reached and no file is written. *)
Theorem X1_process_video_always_raises {frame wave model H}
    (X : externals frame wave model H) (video_url out : string) (w : world H) :
  process_video X video_url out w
  = (Raise (match requests_get X video_url with
            | Ok _ => TypeError
            | Raise e => e
            end),
     World (files w) (trace w ++ [EvGet video_url]) (hidden w)).
Proof.
  unfold process_video, bind at 1. rewrite download_video_run.
  destruct (requests_get X video_url) as [content|e]; [|done].
  unfold bind. by rewrite extract_audio_BytesIO.
Qed.

(** X3: for [chunk_duration > 0], no chunk of [split_audio] is empty and
    none is longer than [chunk_duration * 1000] milliseconds; every chunk
    but the last lasts exactly that long; and the durations of the chunks
    add up to the duration of the audio. *)
Theorem X3_split_audio_durations {frame wave model H}
    (X : externals frame wave model H)
    (audio_data : bytes) (audio : list frame) (chunk_duration : Z) (w : world H) :
  (0 < chunk_duration)%Z →
  from_file X audio_data = Ok audio →
  let step := (chunk_duration * 1000)%Z in
  ∃ segs : list (list frame),
    (split_audio X audio_data chunk_duration w).1 = Ok (export X <$> segs)
    ∧ Forall (λ seg, (0 < Z.of_nat (length seg) ≤ step)%Z) segs
    ∧ (∀ (i : nat) seg, segs !! i = Some seg → S i < length segs →
         Z.of_nat (length seg) = step)
    ∧ sum_list (length <$> segs) = length audio.
Proof.
  intros Hcd Hdec step.
  assert (0 < step)%Z as Hstep by (subst step; lia).
  exists (strides audio step).
  pose proof (strides_bounds audio step Hstep) as Hb. cbv zeta in Hb.
  set (n := Z.of_nat (length (strides audio step))) in *.
  set (D := Z.of_nat (length audio)) in *.
  assert (∀ i : nat, Z.of_nat (i * Z.to_nat step) = Z.of_nat i * step)%Z as Hoff
    by (intros i; rewrite Nat2Z.inj_mul; lia).
  split_and!.
  - by rewrite (split_audio_forward X audio_data audio) by done.
  - apply Forall_lookup. intros i seg Hi.
    apply strides_lookup in Hi as [Hlt ->].
    assert (Z.of_nat i * step < D)%Z as Hin by (subst n; nia).
    rewrite length_stride. specialize (Hoff i). subst D. lia.
  - intros i seg Hi Hnext.
    apply strides_lookup in Hi as [_ ->].
    assert ((Z.of_nat i + 1) * step < D)%Z as Hin by (subst n; nia).
    rewrite length_stride. specialize (Hoff i). subst D. lia.
  - rewrite <- length_concat_sum. by rewrite concat_all_strides.
Qed.

Lemma X3_split_audio_durations_witness :
  ∃ segs : list bytes,
    (split_audio Toy.libs (Toy.sound 2 Byte.x61 ++ Toy.sound 1 Byte.x62) 1 Toy.w0).1
    = Ok segs
    ∧ sum_list (length <$> segs) = Z.to_nat 3000.
Proof.
  destruct (X3_split_audio_durations Toy.libs
              (Toy.sound 2 Byte.x61 ++ Toy.sound 1 Byte.x62)
              (Toy.sound 2 Byte.x61 ++ Toy.sound 1 Byte.x62) 1 Toy.w0)
    as (segs & Hsplit & _ & _ & Hsum).
  - lia.
  - reflexivity.
  - exists segs. split.
    + rewrite Hsplit. f_equal. apply (list_fmap_id segs).
    + rewrite Hsum. compute_done.
Defined.

(** X4: when there is nothing to cut, an audio of duration 0 and a
    non-zero [chunk_duration], or a negative [chunk_duration] and any
    audio, the run still loads the model, transcribes nothing, writes an
    empty output file and prints the success message. *)
Theorem X4_no_chunks_empty_file {frame wave model H}
    (X : externals frame wave model H)
    (chunk_duration : Z) (audio_data : bytes) (audio : list frame)
    (out : string) (w : world H) (self : model) :
  from_file X audio_data = Ok audio →
  load_model X "base" = Ok self →
  (audio = [] ∧ chunk_duration ≠ 0%Z) ∨ (chunk_duration < 0)%Z →
  process_audio X chunk_duration audio_data out w
  = (Ok (),
     World (<[out := ""]> (files w))
           (trace w ++ [EvDecode audio_data; EvLoadModel "base";
                        EvWrite out ""; EvPrint (success_message out)])
           (hidden w)).
Proof.
  intros Hdec Hload Hnothing.
  assert ((split_audio X audio_data chunk_duration w).1 = Ok []) as Hsplit.
  { destruct (Z.lt_trichotomy chunk_duration 0) as [Hneg|[Hzero|Hpos]].
    - by rewrite (split_audio_backward X audio_data audio).
    - destruct Hnothing as [[_ ?]|?]; [done|lia].
    - destruct Hnothing as [[-> _]|?]; [|lia].
      rewrite (split_audio_forward X audio_data []) by done. cbn [fst].
      f_equal. unfold strides. cbn [length]. change (Z.of_nat 0) with 0%Z.
      rewrite Z.div_small by lia. reflexivity. }
  rewrite (process_audio_run X _ _ _ _ _ self Hsplit Hload).
  cbn [segments hidden_after assemble length take fmap list_fmap].
  by rewrite <- app_assoc.
Qed.

Lemma X4_no_chunks_empty_file_witness :
  files (process_audio Toy.libs 30 [] Toy.out Toy.w0).2 !! Toy.out = Some "".
Proof.
  rewrite (X4_no_chunks_empty_file Toy.libs 30 [] [] Toy.out Toy.w0 ()).
  - reflexivity.
  - reflexivity.
  - reflexivity.
  - left. split; [reflexivity|lia].
Defined.

(** X5: the model is loaded only once the audio has been cut. If the
    decoder rejects the audio, or [chunk_duration] is 0, the run ends with
    that exception after the decode call alone; if loading the model
    fails, the run ends with that exception and the chunks already cut are
    dropped. Neither run transcribes or writes anything. *)
Theorem X5_failures_before_the_loop {frame wave model H}
    (X : externals frame wave model H)
    (chunk_duration : Z) (audio_data : bytes) (out : string) (w : world H) :
  (∀ e, from_file X audio_data = Raise e
        ∨ (is_ok (from_file X audio_data) = true
           ∧ chunk_duration = 0%Z ∧ e = ValueError) →
     process_audio X chunk_duration audio_data out w
     = (Raise e, World (files w) (trace w ++ [EvDecode audio_data]) (hidden w)))
  ∧ (∀ e chunks, (split_audio X audio_data chunk_duration w).1 = Ok chunks →
       load_model X "base" = Raise e →
       process_audio X chunk_duration audio_data out w
       = (Raise e,
          World (files w) (trace w ++ [EvDecode audio_data; EvLoadModel "base"])
                (hidden w))).
Proof.
  split.
  - intros e Hcase. apply process_audio_split_fails.
    destruct Hcase as [Hdec|(Hdec & -> & ->)].
    + by rewrite (split_audio_undecodable X audio_data e).
    + destruct (from_file X audio_data) as [audio|e] eqn:Hfile; [|done].
      by rewrite (split_audio_zero X audio_data audio).
  - intros e chunks Hsplit Hload. by apply process_audio_load_fails with chunks.
Qed.

Lemma X5_failures_before_the_loop_witness :
  process_audio Toy.libs 0 [Byte.x61] Toy.out Toy.w0
  = (Raise ValueError, World ∅ [EvDecode [Byte.x61]] 0).
Proof.
  refine (proj1 (X5_failures_before_the_loop Toy.libs 0 [Byte.x61] Toy.out Toy.w0)
            ValueError _).
  right. split_and!; reflexivity.
Defined.

Lemma no_print_before_save (msg : string) (audio_data : bytes) (name : string)
    (chunks : list bytes) :
  EvPrint msg ∉ [EvDecode audio_data; EvLoadModel name] ++ (EvTranscribe <$> chunks).
Proof.
  intros [Hin|Hin]%elem_of_app.
  - repeat (apply elem_of_cons in Hin as [?|Hin]; [done|]). by apply elem_of_nil in Hin.
  - by apply list_elem_of_fmap in Hin as (chunk & ? & _).
Qed.

(** X6: the success message is printed exactly by the runs that succeed,
    and then as the last thing the run does, right after the one and only
    write, which puts the transcript in the output file. *)
Theorem X6_success_message {frame wave model H}
    (X : externals frame wave model H)
    (chunk_duration : Z) (audio_data : bytes) (out : string) (w : world H) :
  let run := process_audio X chunk_duration audio_data out w in
  ∃ calls : list event,
    trace run.2 = trace w ++ calls
    ∧ (run.1 = Ok () ↔ EvPrint (success_message out) ∈ calls)
    ∧ (run.1 = Ok () →
         ∃ (before : list event) (full_text : string),
           calls = before ++ [EvWrite out full_text; EvPrint (success_message out)]
           ∧ Forall (λ ev, is_write ev = false) before
           ∧ files run.2 !! out = Some full_text).
Proof.
  intros run. subst run.
  destruct (split_audio X audio_data chunk_duration w).1 as [chunks|e1] eqn:Hsplit.
  - destruct (load_model X "base") as [self|e2] eqn:Hload.
    + rewrite (process_audio_run X _ _ _ _ _ self Hsplit Hload).
      destruct (assemble "" _) as [full_text|e3]; cbn [fst snd files trace].
      * eexists. split; [by rewrite <- !app_assoc|]. split.
        -- split; [intros _|done]. rewrite !elem_of_app. right. right.
           apply elem_of_cons. right. apply elem_of_cons. by left.
        -- intros _. eexists _, full_text. split; [by rewrite app_assoc|].
           split; [|by rewrite lookup_insert_eq].
           apply Forall_app. split; [by repeat constructor|].
           by apply Forall_fmap, Forall_forall.
      * eexists. split; [done|]. split; [|done].
        split; [done|]. intros Hin. by apply no_print_before_save in Hin.
    + rewrite (process_audio_load_fails X _ _ _ _ chunks e2 Hsplit Hload).
      cbn [fst snd trace]. eexists. split; [done|]. split; [|done].
      split; [done|]. intros Hin.
      by apply (no_print_before_save _ audio_data "base" []) in Hin.
  - rewrite (process_audio_split_fails X _ _ _ _ e1 Hsplit).
    cbn [fst snd trace]. eexists. split; [done|]. split; [|done].
    split; [done|]. intros Hin.
    apply elem_of_cons in Hin as [?|Hin]; [done|]. by apply elem_of_nil in Hin.
Qed.

Lemma X6_success_message_witness :
  ∃ calls : list event,
    trace (process_audio Toy.libs 30 Toy.a_c Toy.out Toy.w0).2 = calls
    ∧ EvPrint (success_message Toy.out) ∉ calls.
Proof.
  destruct (X6_success_message Toy.libs 30 Toy.a_c Toy.out Toy.w0)
    as (calls & Htrace & Hiff & _).
  exists calls. split; [exact Htrace|].
  intros Hin. apply Hiff in Hin. revert Hin. compute_done.
Defined.

(** X7: the loop only ever appends to [full_text]: started with a text
    already gathered, it makes the same calls, fails on the same chunk, and
    otherwise returns that text followed by what it returns when started
    with the empty text. *)
Theorem X7_loop_only_appends {frame wave model H}
    (X : externals frame wave model H)
    (self : model) (full_text : string) (chunks : list bytes) (w : world H) :
  transcribe_loop X self full_text chunks w
  = (match (transcribe_loop X self "" chunks w).1 with
     | Ok gathered => Ok (full_text +:+ gathered)
     | Raise e => Raise e
     end,
     (transcribe_loop X self "" chunks w).2).
Proof.
  rewrite !transcribe_loop_run. cbn [fst snd]. f_equal.
  destruct (segments_shape X self chunks (hidden w))
    as (texts & [[-> _]|(e & -> & _)]).
  - by rewrite !assemble_oks.
  - by rewrite !assemble_raise.
Qed.

(** X8: transcribing a chunk sequence cut in two, the second part started
    with the text gathered over the first, is transcribing the whole
    sequence: same calls, same result, and a failure in the first part
    keeps the second from being transcribed. *)
Theorem X8_loop_concat {frame wave model H}
    (X : externals frame wave model H)
    (self : model) (full_text : string) (chunks1 chunks2 : list bytes)
    (w : world H) :
  transcribe_loop X self full_text (chunks1 ++ chunks2) w
  = bind (transcribe_loop X self full_text chunks1)
         (λ gathered, transcribe_loop X self gathered chunks2) w.
Proof.
  revert full_text w.
  induction chunks1 as [|chunk rest IH]; intros full_text w; [done|].
  cbn [app transcribe_loop]. unfold bind at 1 2 3.
  destruct (transcribe X self chunk w) as [[text|e] w']; [|done].
  rewrite IH. reflexivity.
Qed.

Lemma length_append (s1 s2 : string) :
  String.length (s1 +:+ s2) = String.length s1 + String.length s2.
Proof.
  induction s1 as [|a s1 IH]; [done|].
  change (S (String.length (s1 +:+ s2)) = S (String.length s1 + String.length s2)).
  by rewrite IH.
Qed.

Lemma length_join_lines (texts : list string) :
  String.length (join_lines texts)
  = sum_list (String.length <$> texts) + length texts.
Proof.
  induction texts as [|t texts IH]; [done|].
  change (join_lines (t :: texts)) with ((t +:+ newline) +:+ join_lines texts).
  change (sum_list (String.length <$> t :: texts))
    with (String.length t + sum_list (String.length <$> texts)).
  change (length (t :: texts)) with (S (length texts)).
  rewrite !length_append, IH.
  change (String.length newline) with 1. lia.
Qed.

Lemma join_lines_snoc (texts : list string) (t : string) :
  join_lines (texts ++ [t]) = (join_lines texts +:+ t) +:+ newline.
Proof.
  rewrite join_lines_app. cbn [join_lines foldr].
  by rewrite append_empty_r, append_assoc.
Qed.

(** X9: when every chunk is transcribed, the transcript written holds one
    newline per chunk besides the characters of the texts, whatever they
    are (an empty text still gives its line), and, when there is a chunk
    at all, it ends with a newline. *)
Theorem X9_transcript_shape {frame wave model H}
    (X : externals frame wave model H)
    (chunk_duration : Z) (audio_data : bytes) (out : string) (w : world H)
    (self : model) (chunks : list bytes) (texts : list string) :
  (split_audio X audio_data chunk_duration w).1 = Ok chunks →
  load_model X "base" = Ok self →
  Forall2 (λ c t, answers X self c (Ok t)) chunks texts →
  ∃ full_text : string,
    files (process_audio X chunk_duration audio_data out w).2 !! out
    = Some full_text
    ∧ String.length full_text
      = sum_list (String.length <$> texts) + length chunks
    ∧ (chunks ≠ [] → ∃ s, full_text = s +:+ newline).
Proof.
  intros Hsplit Hload Hall.
  rewrite (process_audio_run X _ _ _ _ _ self Hsplit Hload).
  rewrite (segments_all_ok X self chunks texts) by done.
  rewrite assemble_oks. cbn [fst snd files].
  exists (join_lines texts). split_and!.
  - by rewrite lookup_insert_eq.
  - rewrite length_join_lines. by rewrite (Forall2_length _ _ _ Hall).
  - intros Hne.
    destruct texts as [|t0 texts0] using rev_ind.
    + apply Forall2_nil_inv_r in Hall. done.
    + eexists. apply join_lines_snoc.
Qed.

Lemma X9_transcript_shape_witness :
  ∃ full_text : string,
    files (process_audio Toy.libs 30 Toy.abc Toy.out Toy.w0).2 !! Toy.out
    = Some full_text
    ∧ String.length full_text = 6.
Proof.
  destruct (X9_transcript_shape Toy.libs 30 Toy.abc Toy.out Toy.w0 ()
              [Toy.sound 30 Byte.x61; Toy.sound 30 Byte.x62; Toy.sound 5 Byte.x63]
              ["a"; "b"; "c"])
    as (full_text & Hfile & Hlen & _).
  - compute_done.
  - reflexivity.
  - repeat constructor.
  - exists full_text. split; [exact Hfile|]. rewrite Hlen. reflexivity.
Defined.

(** X10: a longer [chunk_duration] never gives more chunks: for
    [0 < d1 <= d2], cutting the same audio every [d2] seconds yields at
    most as many chunks as cutting it every [d1] seconds. *)
Theorem X10_longer_chunks_fewer {frame wave model H}
    (X : externals frame wave model H)
    (audio_data : bytes) (audio : list frame) (d1 d2 : Z) (w : world H) :
  (0 < d1 ≤ d2)%Z →
  from_file X audio_data = Ok audio →
  ∃ chunks1 chunks2 : list bytes,
    (split_audio X audio_data d1 w).1 = Ok chunks1
    ∧ (split_audio X audio_data d2 w).1 = Ok chunks2
    ∧ length chunks2 ≤ length chunks1.
Proof.
  intros Hd Hdec.
  exists (export X <$> strides audio (d1 * 1000)),
         (export X <$> strides audio (d2 * 1000)).
  split_and!.
  - by rewrite (split_audio_forward X audio_data audio) by (done || lia).
  - by rewrite (split_audio_forward X audio_data audio) by (done || lia).
  - rewrite !length_fmap.
    pose proof (strides_bounds audio (d1 * 1000) ltac:(lia)) as [_ Hb1].
    pose proof (strides_bounds audio (d2 * 1000) ltac:(lia)) as [Hb2 _].
    set (n1 := length (strides audio (d1 * 1000))) in *.
    set (n2 := length (strides audio (d2 * 1000))) in *.
    assert (Z.of_nat n1 * (d1 * 1000) ≤ Z.of_nat n1 * (d2 * 1000))%Z as Hmono
      by (apply Z.mul_le_mono_nonneg_l; lia).
    assert ((Z.of_nat n2 - 1) * (d2 * 1000) < Z.of_nat n1 * (d2 * 1000))%Z as Hlt
      by lia.
    apply Z.mul_lt_mono_pos_r in Hlt; lia.
Qed.

Lemma X10_longer_chunks_fewer_witness :
  ∃ chunks1 chunks2 : list bytes,
    (split_audio Toy.libs (Toy.sound 3 Byte.x61) 1 Toy.w0).1 = Ok chunks1
    ∧ (split_audio Toy.libs (Toy.sound 3 Byte.x61) 2 Toy.w0).1 = Ok chunks2
    ∧ length chunks2 ≤ length chunks1.
Proof.
  apply (X10_longer_chunks_fewer Toy.libs (Toy.sound 3 Byte.x61)
           (Toy.sound 3 Byte.x61) 1 2 Toy.w0).
  - lia.
  - reflexivity.
Defined.

(** X11: for a positive stride, the start offsets that the loop of
    [split_audio] walks through are exactly the multiples of the stride
    from 0 up to, and not including, the duration, in ascending order. *)
Theorem X11_range_start_offsets (duration_ms step : Z) :
  (0 ≤ duration_ms)%Z →
  (0 < step)%Z →
  ∃ starts : list Z,
    range 0 duration_ms step = Ok starts
    ∧ (∀ x : Z, x ∈ starts ↔ (0 ≤ x < duration_ms)%Z ∧ (step | x)%Z)
    ∧ (∀ (i j : nat) (x y : Z),
         i < j → starts !! i = Some x → starts !! j = Some y → (x < y)%Z).
Proof.
  intros HD Hstep. unfold range.
  destruct (Z.eqb_spec step 0) as [?|_]; [lia|].
  rewrite range_length_forward by done.
  destruct (ceil_div_bounds duration_ms step HD Hstep) as (Hn & Hlow & Hhigh).
  set (n := ((duration_ms + step - 1) `div` step)%Z) in *.
  eexists. split; [reflexivity|]. split.
  - intros x. rewrite list_elem_of_fmap. split.
    + intros (i & -> & Hi). apply elem_of_seq in Hi.
      assert (Z.of_nat i ≤ n - 1)%Z as Hle by lia.
      assert (Z.of_nat i * step ≤ (n - 1) * step)%Z
        by (apply Z.mul_le_mono_nonneg_r; lia).
      split; [nia|]. exists (Z.of_nat i). lia.
    + intros [[Hx0 HxD] [k ->]].
      assert (0 ≤ k)%Z as Hk by nia.
      assert (k * step < n * step)%Z as Hlt by lia.
      apply Z.mul_lt_mono_pos_r in Hlt; [|done].
      exists (Z.to_nat k). split; [lia|]. apply elem_of_seq. lia.
  - intros i j x y Hij Hi Hj.
    rewrite list_lookup_fmap in Hi, Hj.
    destruct (seq _ _ !! i) as [i'|] eqn:Hi'; [|done].
    destruct (seq _ _ !! j) as [j'|] eqn:Hj'; [|done].
    apply lookup_seq in Hi' as [-> _]. apply lookup_seq in Hj' as [-> _].
    cbn [fmap option_fmap option_map] in Hi, Hj.
    injection Hi as <-. injection Hj as <-. nia.
Qed.

Lemma X11_range_start_offsets_witness :
  ∃ starts : list Z,
    range 0 65000 30000 = Ok starts ∧ (60000 ∈ starts)%Z.
Proof.
  destruct (X11_range_start_offsets 65000 30000) as (starts & Hrange & Hmem & _).
  - lia.
  - lia.
  - exists starts. split; [exact Hrange|]. apply Hmem.
    split; [lia|]. exists 2%Z. reflexivity.
Defined.

(** X12: a run whose audio could be cut loads the model "base" once, not
    once per chunk, right after the decoding and before any chunk is
    transcribed; nothing is decoded after that either. *)
Theorem X12_model_loaded_once {frame wave model H}
    (X : externals frame wave model H)
    (chunk_duration : Z) (audio_data : bytes) (out : string) (w : world H)
    (chunks : list bytes) :
  (split_audio X audio_data chunk_duration w).1 = Ok chunks →
  ∃ rest : list event,
    trace (process_audio X chunk_duration audio_data out w).2
    = trace w ++ [EvDecode audio_data; EvLoadModel "base"] ++ rest
    ∧ (∀ name, EvLoadModel name ∉ rest)
    ∧ (∀ data, EvDecode data ∉ rest).
Proof.
  intros Hsplit.
  assert (∀ (ev : event) (cs : list bytes) (tail : list event),
            is_transcribe ev = false → ev ∉ tail →
            ev ∉ (EvTranscribe <$> cs) ++ tail) as Hnot.
  { intros ev cs tail Hev Htail [Hin|Hin]%elem_of_app; [|done].
    apply list_elem_of_fmap in Hin as (c & -> & _). done. }
  destruct (load_model X "base") as [self|e] eqn:Hload.
  - rewrite (process_audio_run X _ _ _ _ _ self Hsplit Hload).
    destruct (assemble "" _) as [full_text|e]; cbn [snd trace].
    + eexists. split; [by rewrite <- !app_assoc|].
      split; intros ?; apply Hnot; [done| |done|].
      * intros Hin. repeat (apply elem_of_cons in Hin as [?|Hin]; [done|]).
        by apply elem_of_nil in Hin.
      * intros Hin. repeat (apply elem_of_cons in Hin as [?|Hin]; [done|]).
        by apply elem_of_nil in Hin.
    + exists (EvTranscribe
                <$> take (length (segments X self chunks (hidden w))) chunks).
      split; [done|].
      split; intros ? Hin; by apply list_elem_of_fmap in Hin as (c & ? & _).
  - rewrite (process_audio_load_fails X _ _ _ _ chunks e Hsplit Hload).
    exists []. cbn [snd trace]. split; [by rewrite app_nil_r|].
    split; intros ? Hin; by apply elem_of_nil in Hin.
Qed.

Lemma X12_model_loaded_once_witness :
  ∃ rest : list event,
    trace (process_audio Toy.libs 30 Toy.abc Toy.out Toy.w0).2
    = [EvDecode Toy.abc; EvLoadModel "base"] ++ rest
    ∧ EvLoadModel "base" ∉ rest.
Proof.
  destruct (X12_model_loaded_once Toy.libs 30 Toy.abc Toy.out Toy.w0
              [Toy.sound 30 Byte.x61; Toy.sound 30 Byte.x62; Toy.sound 5 Byte.x63])
    as (rest & Htrace & Hload & _).
  - compute_done.
  - exists rest. split; [exact Htrace|apply Hload].
Defined.
